(** * Change-impact analyzer: dependency tree and impact classification

    A shallow embedding of [scripts/analyzer] (the tree builder
    [analyzeProject] / [buildDependencyTree], the classifier
    [determineAffectingChanges] and the formatter [determineImpactReason])
    together with the properties its specification states about them. *)

From Stdlib Require Import Ascii.
From stdpp Require Import gmap strings list.

#[local] Set Warnings "-clear-no-such-hyp".

Local Open Scope string_scope.
Local Open Scope list_scope.
Local Open Scope nat_scope.

(** ** Data model ([types.ts]) *)

(** [changeType: 'add' | 'modify' | 'delete'] *)
Inductive ChangeKind := KAdd | KModify | KDelete.

#[global] Instance ChangeKind_eq_dec : EqDecision ChangeKind.
Proof. solve_decision. Defined.

(** The text a template literal [${change.changeType}] produces. *)
Definition kindText (k : ChangeKind) : string :=
  match k with
  | KAdd => "add"
  | KModify => "modify"
  | KDelete => "delete"
  end.

(** [modifiedExports?: string[]]: [None] is the absent field. *)
Record FileChange := mkFileChange {
  changedFile : string;
  changeType : ChangeKind;
  modifiedExports : option (list string) }.

(** A JavaScript [Set<string>] is observed by the analyzer only through
    [Array.from], which lists the members in insertion order; the model
    keeps that list. *)
Record ImportInfo := mkImportInfo {
  source : string;
  specifiers : list string }.

Inductive NodeType := js | asset.

(** [FileNode]; every optional field is an [option], [None] being the
    field that was never assigned.  The field [changeType] of the
    source is [nodeChangeType] here, the name being taken by
    [FileChange]. *)
#[warnings="-register-all"]
Inductive FileNode := mkFileNode {
  file : string;
  type : NodeType;
  imports : option (list ImportInfo);
  exports : option (list string);
  isAffected : option bool;
  nodeChangeType : option ChangeKind;
  reason : option string;
  children : list FileNode }.

(** [interface AffectingImport] *)
Record AffectingImport := mkAffectingImport {
  change : FileChange;
  importedSpecifiers : list string }.

#[global] Instance FileChange_eq_dec : EqDecision FileChange.
Proof. solve_decision. Defined.
#[global] Instance ImportInfo_eq_dec : EqDecision ImportInfo.
Proof. solve_decision. Defined.
#[global] Instance NodeType_eq_dec : EqDecision NodeType.
Proof. solve_decision. Defined.
#[global] Instance AffectingImport_eq_dec : EqDecision AffectingImport.
Proof. solve_decision. Defined.

(** [AnalysisOptions] *)
Record AnalysisOptions := mkAnalysisOptions {
  entryFile : string;
  changes : list FileChange }.

(** ** Collaborators

    [./utils], [./parser], [fs/promises] and [path] are imported by the
    analyzer and are not part of it; they are taken as an interface.  A
    call that can throw or reject returns that outcome as a value:
    [access] is [false] when [fs.access] rejects, [parseFile] is [None]
    when the parser throws, and [resolveImportPath] is [None] for
    [null]. *)
Record Collaborators := mkCollaborators {
  rootDir : string;
  access : string → bool;
  accessError : string → string;
  isJavaScriptFile : string → bool;
  shouldIgnoreFile : string → bool;
  resolveImportPath : string → string → string → option string;
  parseFile : string → option (list ImportInfo * list string);
  basename : string → string }.

(** The line feed of ['\n']. *)
Definition newline : string := String (Ascii.ascii_of_nat 10) EmptyString.

(** JavaScript truthiness of a [string | null]: [null] and the empty
    string are falsy. *)
Definition truthy (p : option string) : bool :=
  match p with
  | Some s => negb (bool_decide (s = ""))
  | None => false
  end.

(** [change.modifiedExports?.length] used as a condition: truthy exactly
    for a present, non-empty array. *)
Definition hasModifiedExports (c : FileChange) : bool :=
  match modifiedExports c with
  | Some (_ :: _) => true
  | _ => false
  end.

(** [change.modifiedExports?.includes(spec)] *)
Definition modifiedIncludes (c : FileChange) (spec : string) : bool :=
  match modifiedExports c with
  | Some m => bool_decide (spec ∈ m)
  | None => false
  end.

(** ** Impact classifier and reason formatter *)
Section Classifier.
Variable E : Collaborators.

(** The body of [imports.forEach] inside the loop over [changes]:
    [acc] is [affectingChanges], and [push] appends at the end. *)
Definition classifyImport (filePath : string) (c : FileChange)
    (acc : list AffectingImport) (imp : ImportInfo) : list AffectingImport :=
  let resolvedSource := resolveImportPath E filePath (source imp) (rootDir E) in
  if bool_decide (resolvedSource = Some (changedFile c)) then
    if bool_decide (changeType c = KModify) && hasModifiedExports c then
      let affectedSpecifiers := List.filter (modifiedIncludes c) (specifiers imp) in
      if bool_decide (0 < length affectedSpecifiers) then
        acc ++ [mkAffectingImport c affectedSpecifiers]
      else acc
    else acc ++ [mkAffectingImport c (specifiers imp)]
  else acc.

Definition determineAffectingChanges (filePath : string)
    (changes : list FileChange) (imports : list ImportInfo) : list AffectingImport :=
  fold_left
    (fun acc c => fold_left (classifyImport filePath c) imports acc)
    changes [].

(** One iteration of the loop of [determineImpactReason]; the [switch]
    is exhaustive over the three change kinds. *)
Definition reasonLine (a : AffectingImport) : string :=
  let fileName := basename E (changedFile (change a)) in
  match changeType (change a) with
  | KDelete => "Imported file '" +:+ fileName +:+ "' was deleted"
  | KAdd => "New file '" +:+ fileName +:+ "' was added that is imported"
  | KModify =>
      if hasModifiedExports (change a)
         && bool_decide (0 < length (importedSpecifiers a)) then
        "Modified exports from '" +:+ fileName +:+ "': "
          +:+ String.concat ", " (importedSpecifiers a)
      else "File '" +:+ fileName +:+ "' content was modified"
  end.

Definition determineImpactReason (filePath : string)
    (affectingChanges : list AffectingImport) (imports : list ImportInfo) : string :=
  let reasons :=
    fold_left (fun reasons a => reasons ++ [reasonLine a]) affectingChanges [] in
  String.concat newline reasons.

End Classifier.

(** ** Tree builder *)

(** The object literal [{ file, type, children: [] }]. *)
Definition bareNode (f : string) (t : NodeType) : FileNode :=
  mkFileNode f t None None None None None [].

(** Field assignments [node.x = v]. *)
Definition withImports (v : list ImportInfo) (n : FileNode) : FileNode :=
  mkFileNode (file n) (type n) (Some v) (exports n) (isAffected n)
    (nodeChangeType n) (reason n) (children n).
Definition withExports (v : list string) (n : FileNode) : FileNode :=
  mkFileNode (file n) (type n) (imports n) (Some v) (isAffected n)
    (nodeChangeType n) (reason n) (children n).
Definition withIsAffected (v : bool) (n : FileNode) : FileNode :=
  mkFileNode (file n) (type n) (imports n) (exports n) (Some v)
    (nodeChangeType n) (reason n) (children n).
Definition withChangeType (v : ChangeKind) (n : FileNode) : FileNode :=
  mkFileNode (file n) (type n) (imports n) (exports n) (isAffected n)
    (Some v) (reason n) (children n).
Definition withReason (v : string) (n : FileNode) : FileNode :=
  mkFileNode (file n) (type n) (imports n) (exports n) (isAffected n)
    (nodeChangeType n) (Some v) (children n).
Definition withChildren (v : list FileNode) (n : FileNode) : FileNode :=
  mkFileNode (file n) (type n) (imports n) (exports n) (isAffected n)
    (nodeChangeType n) (reason n) v.

(** A call of [buildDependencyTree] in flight.

    [Pending f] is a call [buildDependencyTree(f, context)] that is about
    to be made: the first one, made by [analyzeProject], or the one a
    callback of [imports.map] makes once its [await fs.access(f)] has
    resolved.  [Running node childPromises] is a call that has assigned
    everything up to [node.reason] and awaits
    [Promise.all(childPromises)]; it has returned when all of its
    [childPromises] have. *)
#[warnings="-register-all"]
Inductive Task :=
| Pending (filePath : string)
| Running (node : FileNode) (childPromises : list Task).

Fixpoint pendingCount (t : Task) : nat :=
  match t with
  | Pending _ => 1
  | Running _ kids => sum_list (pendingCount <$> kids)
  end.

(** The value the promise of a call resolves to: [node.children] is
    assigned the results of the child promises, in their order. *)
Fixpoint settle (t : Task) : option FileNode :=
  match t with
  | Pending _ => None
  | Running node kids =>
      match mapM settle kids with
      | Some children => Some (withChildren children node)
      | None => None
      end
  end.

Section Builder.
Variable E : Collaborators.
Variable changes : list FileChange.

Definition fileType (filePath : string) : NodeType :=
  if isJavaScriptFile E filePath then js else asset.

(** What the guard [visited.has(filePath)] returns. *)
Definition stubNode (filePath : string) : FileNode :=
  bareNode filePath (fileType filePath).

(** [changes.find(c => c.changedFile === filePath)] *)
Definition findChange (filePath : string) : option FileChange :=
  List.find (fun c => bool_decide (changedFile c = filePath)) changes.

(** A callback of [imports.map] up to its call of
    [buildDependencyTree]: [Some p] when it goes on to call
    [buildDependencyTree(p, context)], [None] when it returns [null]. *)
Definition importTarget (filePath : string) (imp : ImportInfo) : option string :=
  let resolvedPath := resolveImportPath E filePath (source imp) (rootDir E) in
  if truthy resolvedPath then
    match resolvedPath with
    | Some p => if access E p then Some p else None
    | None => None
    end
  else None.

(** The callbacks that survive [.filter(child => child !== null)]. *)
Definition childTargets (filePath : string) (imports : list ImportInfo) : list string :=
  omap (importTarget filePath) imports.

(** [buildDependencyTree] from its outer [try] on: the node as it is
    when the children are awaited, and the files the child callbacks
    build. *)
Definition visitFile (filePath : string) : FileNode * list string :=
  if access E filePath then
    let node := bareNode filePath (fileType filePath) in
    let node :=
      match findChange filePath with
      | Some c =>
          withReason ("File was " +:+ kindText (changeType c) +:+ "d")
            (withChangeType (changeType c) node)
      | None => node
      end in
    if bool_decide (type node = js) && negb (shouldIgnoreFile E filePath) then
      match parseFile E filePath with
      | Some (imports, exports) =>
          let node := withExports exports (withImports imports node) in
          let affectingChanges :=
            determineAffectingChanges E filePath changes imports in
          let node :=
            if bool_decide (0 < length affectingChanges) then
              withReason (determineImpactReason E filePath affectingChanges imports)
                (withIsAffected true node)
            else node in
          (node, childTargets filePath imports)
      | None => (node, [])
      end
    else if bool_decide (type node = asset) then
      match findChange filePath with
      | Some c =>
          (withReason ("Asset file was " +:+ kindText (changeType c) +:+ "d")
             (withIsAffected true node), [])
      | None => (node, [])
      end
    else (node, [])
  else (bareNode filePath asset, []).

(** The synchronous start of [buildDependencyTree]: the guard on the
    shared [visited] set and [visited.add]. *)
Definition enter (visited : gset string) (filePath : string) : Task * gset string :=
  if bool_decide (filePath ∈ visited) then (Running (stubNode filePath) [], visited)
  else
    let (node, targets) := visitFile filePath in
    (Running node (Pending <$> targets), {[filePath]} ∪ visited).

(** The event loop resumes one pending call, the [k]-th in tree order.
    Between its [visited.add] and its children the call awaits only
    [fs.access] and [parseFile], which neither read nor write
    [visited]; a resumed call is therefore taken to its
    [Promise.all] in one step. *)
Fixpoint advance (k : nat) (visited : gset string) (t : Task) : Task * gset string :=
  match t with
  | Pending filePath => enter visited filePath
  | Running node kids =>
      let fix among (k : nat) (kids : list Task) : list Task * gset string :=
        match kids with
        | [] => ([], visited)
        | kid :: rest =>
            if bool_decide (k < pendingCount kid) then
              let (kid', visited') := advance k visited kid in
              (kid' :: rest, visited')
            else
              let (rest', visited') := among (k - pendingCount kid) rest in
              (kid :: rest', visited')
        end in
      let (kids', visited') := among k kids in
      (Running node kids', visited')
  end.

(** The local function [among] of [advance], to name it in statements. *)
Definition advanceAmong (visited : gset string) : nat → list Task → list Task * gset string :=
  fix among (k : nat) (kids : list Task) : list Task * gset string :=
    match kids with
    | [] => ([], visited)
    | kid :: rest =>
        if bool_decide (k < pendingCount kid) then
          let (kid', visited') := advance k visited kid in
          (kid' :: rest, visited')
        else
          let (rest', visited') := among (k - pendingCount kid) rest in
          (kid :: rest', visited')
    end.

(** The traversal under a schedule: [sched] lists, step by step, which
    pending call the event loop resumes (an index past the last
    pending call selects the last one); [fuel] bounds the number of
    steps. *)
Fixpoint run (fuel : nat) (sched : list nat) (visited : gset string) (t : Task)
    : option FileNode :=
  if bool_decide (pendingCount t = 0) then settle t
  else
    match fuel with
    | 0 => None
    | S fuel' =>
        let k := Nat.min (hd 0 sched) (pendingCount t - 1) in
        let (t', visited') := advance k visited t in
        run fuel' (tl sched) visited' t'
    end.

(** [buildDependencyTree(filePath, context)] run to completion: the
    [changes] and [rootDir] of [context] are [changes] and [rootDir E],
    and its [visited] set, shared by all the calls, is the one the steps
    thread. *)
Definition buildDependencyTree (fuel : nat) (sched : list nat)
    (visited : gset string) (filePath : string) : option FileNode :=
  run fuel sched visited (Pending filePath).

End Builder.

(** [analyzeProject]: [inl] is the message of the [Error] it throws,
    [inr] the tree it resolves to; [None] only when [fuel] does not
    cover the traversal.  [buildDependencyTree] catches whatever is
    thrown inside it, so the [catch] of [analyzeProject] is reached from
    [fs.access(entryFile)] alone. *)
Definition analyzeProject (E : Collaborators) (fuel : nat) (sched : list nat)
    (options : AnalysisOptions) : option (string + FileNode) :=
  if access E (entryFile options) then
    match buildDependencyTree E (changes options) fuel sched ∅ (entryFile options) with
    | Some tree => Some (inr tree)
    | None => None
    end
  else
    Some (inl ("Failed to analyze project: " +:+ accessError E (entryFile options))).

(** ** The nodes of a tree and of a traversal in flight *)

(** Every node of a tree, parents before children, siblings in order. *)
Fixpoint subnodes (n : FileNode) : list FileNode :=
  match n with
  | mkFileNode _ _ _ _ _ _ _ kids => n :: concat (subnodes <$> kids)
  end.

Definition taskFile (t : Task) : string :=
  match t with
  | Pending f => f
  | Running n _ => file n
  end.

(** The calls that have passed the guard, each with the files of its
    child promises; and the files of the calls still to be made. *)
Fixpoint started (t : Task) : list (FileNode * list string) :=
  match t with
  | Pending _ => []
  | Running n kids => (n, taskFile <$> kids) :: concat (started <$> kids)
  end.

Fixpoint pendings (t : Task) : list string :=
  match t with
  | Pending f => [f]
  | Running _ kids => concat (pendings <$> kids)
  end.

(** A stub as the specification describes it: the file's type, no
    children and none of the optional fields. *)
Definition isStub (E : Collaborators) (n : FileNode) : bool :=
  match imports n, exports n, isAffected n, nodeChangeType n, reason n, children n with
  | None, None, None, None, None, [] => bool_decide (type n = fileType E (file n))
  | _, _, _, _, _, _ => false
  end.

(** What a node records besides its children, and the files of its
    children. *)
Definition entry (n : FileNode) : FileNode * list string :=
  (withChildren [] n, file <$> children n).

(** ** Auxiliary notions for the statements *)

(** The node a call produces and the files of its child promises. *)
Definition enterNode (E : Collaborators) (changes : list FileChange)
    (visited : gset string) (filePath : string)
    : FileNode * list string :=
  if bool_decide (filePath ∈ visited) then (stubNode E filePath, [])
  else visitFile E changes filePath.

(** A node and the files of its children are what the guard or a
    visit of its file produces. *)
Definition Shape (E : Collaborators) (changes : list FileChange)
    (e : FileNode * list string) : Prop :=
  (e.1 = stubNode E (file e.1) ∧ e.2 = []) ∨ visitFile E changes (file e.1) = e.

(** The entries that are not stubs. *)
Definition populated (E : Collaborators)
    (l : list (FileNode * list string)) : list (FileNode * list string) :=
  filter (λ e, isStub E e.1 = false) l.

(** What holds of the visited set and the calls in flight at every step:
    every started call has the node of the guard or of a visit; its file
    is visited; every visited file has the node of its visit; no file
    has two populated nodes; and only accessible files are entered. *)
Record Inv (E : Collaborators) (changes : list FileChange)
    (v : gset string) (t : Task) : Prop := mkInv {
  inv_shape : Forall (Shape E changes) (started t);
  inv_visited : ∀ e, e ∈ started t → file e.1 ∈ v;
  inv_first : ∀ f, f ∈ v → visitFile E changes f ∈ started t;
  inv_once : NoDup ((λ e, file e.1) <$> populated E (started t));
  inv_pending : ∀ f, f ∈ pendings t → access E f = true;
  inv_access : ∀ f, f ∈ v → access E f = true }.

(** The same for the nodes of a finished tree. *)
Record TreeOk (E : Collaborators) (changes : list FileChange)
    (tree : FileNode) : Prop := mkTreeOk {
  tree_shape : ∀ n, n ∈ subnodes tree → Shape E changes (entry n);
  tree_once : NoDup (file <$> filter (λ n, isStub E n = false) (subnodes tree));
  tree_first : ∀ n, n ∈ subnodes tree →
               ∃ n', n' ∈ subnodes tree ∧ entry n' = visitFile E changes (file n);
  tree_access : ∀ n, n ∈ subnodes tree → access E (file n) = true }.

(** The node after the Change Set lookup of step (d). *)
Definition stamped (E : Collaborators) (changes : list FileChange)
    (f : string) : FileNode :=
  match findChange changes f with
  | Some c =>
      withReason ("File was " +:+ kindText (changeType c) +:+ "d")
        (withChangeType (changeType c) (bareNode f (fileType E f)))
  | None => bareNode f (fileType E f)
  end.

(** The modified exports an import names, in the import's order. *)
Definition intersection (imp : ImportInfo) (m : list string) : list string :=
  List.filter (λ spec, bool_decide (spec ∈ m)) (specifiers imp).

(** No export-level information: [add], [delete], or a [modify] whose
    [modifiedExports] is absent or empty. *)
Definition coarse (c : FileChange) : Prop :=
  changeType c = KAdd ∨ changeType c = KDelete
  ∨ (changeType c = KModify
     ∧ (modifiedExports c = None ∨ modifiedExports c = Some [])).


(** The two situations in which a visit marks a node affected. *)
Definition changedAsset (E : Collaborators) (changes : list FileChange)
    (f : string) : Prop :=
  isJavaScriptFile E f = false ∧ ∃ c, c ∈ changes ∧ changedFile c = f.

Definition affectedByImport (E : Collaborators) (changes : list FileChange)
    (f : string) : Prop :=
  ∃ imps exps,
    isJavaScriptFile E f = true ∧ shouldIgnoreFile E f = false
    ∧ parseFile E f = Some (imps, exps)
    ∧ determineAffectingChanges E f changes imps ≠ [].

(** The four templates as the specification words them: a [modify]
    entry "with recorded specifiers" gets the line that lists them, one
    "without specifiers" the other. *)
Definition specReasonLine (E : Collaborators) (a : AffectingImport) : string :=
  let fileName := basename E (changedFile (change a)) in
  match changeType (change a) with
  | KDelete => "Imported file '" +:+ fileName +:+ "' was deleted"
  | KAdd => "New file '" +:+ fileName +:+ "' was added that is imported"
  | KModify =>
      match importedSpecifiers a with
      | _ :: _ =>
          "Modified exports from '" +:+ fileName +:+ "': "
            +:+ String.concat ", " (importedSpecifiers a)
      | [] => "File '" +:+ fileName +:+ "' content was modified"
      end
  end.

(** The templates as the code selects them: for a [modify], by whether
    the change carries a non-empty [modifiedExports]. *)
Definition impactLine (E : Collaborators) (a : AffectingImport) : string :=
  let fileName := basename E (changedFile (change a)) in
  match changeType (change a) with
  | KDelete => "Imported file '" +:+ fileName +:+ "' was deleted"
  | KAdd => "New file '" +:+ fileName +:+ "' was added that is imported"
  | KModify =>
      if hasModifiedExports (change a) then
        "Modified exports from '" +:+ fileName +:+ "': "
          +:+ String.concat ", " (importedSpecifiers a)
      else "File '" +:+ fileName +:+ "' content was modified"
  end.

(** ** Small projects

    A concrete instance of the collaborators over a listed disk: [disk]
    gives every accessible file with what the parser returns for it
    ([None]: the parser throws), [links] is the resolver's table. *)

Fixpoint lastSegment (acc s : string) : string :=
  match s with
  | EmptyString => acc
  | String c rest =>
      if bool_decide (c = "/"%char) then lastSegment rest rest
      else lastSegment acc rest
  end.

Definition hasExtension (ext s : string) : bool :=
  String.prefix (String.rev ext) (String.rev s).

Definition project (disk : list (string * option (list ImportInfo * list string)))
    (links : list (string * string * string)) : Collaborators :=
  {| rootDir := "/p";
     access f := bool_decide (f ∈ disk.*1);
     accessError f := "ENOENT: no such file or directory, access '" +:+ f +:+ "'";
     isJavaScriptFile f :=
       hasExtension ".ts" f || hasExtension ".tsx" f
       || hasExtension ".js" f || hasExtension ".jsx" f;
     shouldIgnoreFile f := hasExtension ".d.ts" f;
     resolveImportPath from src _ :=
       snd <$> List.find (λ x, bool_decide (x.1 = (from, src))) links;
     parseFile f := List.find (λ x, bool_decide (x.1 = f)) disk ≫= snd;
     basename f := lastSegment f f |}.

(** An entry with a code child that imports a modified file without
    naming a modified export ([y.ts]), one that names it ([z.ts]), an
    external package, a resolved path that is not on disk, an asset, a
    file the parser rejects and an ignored file. *)
Definition sample : Collaborators :=
  project
    [("/p/entry.ts",
      Some ([mkImportInfo "./y" ["y"]; mkImportInfo "lodash" ["map"];
             mkImportInfo "./gone" ["g"]; mkImportInfo "./z" ["z"];
             mkImportInfo "./logo.png" []; mkImportInfo "./broken" [];
             mkImportInfo "./types" []], []));
     ("/p/y.ts", Some ([mkImportInfo "./x" ["bar"]], ["y"]));
     ("/p/z.ts", Some ([mkImportInfo "./x" ["foo"]], ["z"]));
     ("/p/x.ts", Some ([], ["foo"; "bar"]));
     ("/p/logo.png", None);
     ("/p/broken.ts", None);
     ("/p/types.d.ts", Some ([mkImportInfo "./x" ["foo"]], []))]
    [("/p/entry.ts", "./y", "/p/y.ts"); ("/p/entry.ts", "./z", "/p/z.ts");
     ("/p/entry.ts", "./gone", "/p/gone.ts");
     ("/p/entry.ts", "./logo.png", "/p/logo.png");
     ("/p/entry.ts", "./broken", "/p/broken.ts");
     ("/p/entry.ts", "./types", "/p/types.d.ts");
     ("/p/y.ts", "./x", "/p/x.ts"); ("/p/z.ts", "./x", "/p/x.ts");
     ("/p/types.d.ts", "./x", "/p/x.ts")].

Definition sampleChanges : list FileChange :=
  [mkFileChange "/p/x.ts" KModify (Some ["foo"]);
   mkFileChange "/p/y.ts" KModify None;
   mkFileChange "/p/logo.png" KAdd None;
   mkFileChange "/p/broken.ts" KDelete None;
   mkFileChange "/p/z.ts" KModify None].

Definition sampleOptions : AnalysisOptions :=
  mkAnalysisOptions "/p/entry.ts" sampleChanges.


(** The tree of [sample] when the event loop always resumes the first
    pending call. *)
Definition sampleTree : FileNode :=
  Eval vm_compute in
    match analyzeProject sample 8 [] sampleOptions with
    | Some (inr tree) => tree
    | _ => bareNode "" asset
    end.

(** [a.ts] imports [b.ts] and [b.ts] imports [a.ts]. *)
Definition cycle : Collaborators :=
  project
    [("/p/a.ts", Some ([mkImportInfo "./b" ["b"]], ["a"]));
     ("/p/b.ts", Some ([mkImportInfo "./a" ["a"]], ["b"]))]
    [("/p/a.ts", "./b", "/p/b.ts"); ("/p/b.ts", "./a", "/p/a.ts")].

Definition cycleOptions : AnalysisOptions := mkAnalysisOptions "/p/a.ts" [].

Definition cycleFiles : gset string := list_to_set ["/p/a.ts"; "/p/b.ts"].

(** [entry.ts] imports [a.ts] and [b.ts], and both import [c.ts]. *)
Definition diamond : Collaborators :=
  project
    [("/p/entry.ts", Some ([mkImportInfo "./a" ["a"]; mkImportInfo "./b" ["b"]], []));
     ("/p/a.ts", Some ([mkImportInfo "./c" ["c"]], ["a"]));
     ("/p/b.ts", Some ([mkImportInfo "./c" ["c"]], ["b"]));
     ("/p/c.ts", Some ([], ["c"]))]
    [("/p/entry.ts", "./a", "/p/a.ts"); ("/p/entry.ts", "./b", "/p/b.ts");
     ("/p/a.ts", "./c", "/p/c.ts"); ("/p/b.ts", "./c", "/p/c.ts")].

Definition diamondOptions : AnalysisOptions := mkAnalysisOptions "/p/entry.ts" [].

(** The node a visit of [c.ts] produces, and the stub. *)
Definition diamondVisited : FileNode :=
  mkFileNode "/p/c.ts" js (Some []) (Some ["c"]) None None None [].

Definition diamondStub : FileNode :=
  mkFileNode "/p/c.ts" js None None None None None [].

Definition diamondTree (ca cb : FileNode) : FileNode :=
  mkFileNode "/p/entry.ts" js
    (Some [mkImportInfo "./a" ["a"]; mkImportInfo "./b" ["b"]]) (Some [])
    None None None
    [mkFileNode "/p/a.ts" js (Some [mkImportInfo "./c" ["c"]]) (Some ["a"])
       None None None [ca];
     mkFileNode "/p/b.ts" js (Some [mkImportInfo "./c" ["c"]]) (Some ["b"])
       None None None [cb]].

(** ** The changes of the last commit (the git script)

    [simple-git] and [./parser] with an explicit content are taken as an
    interface, like the collaborators of the analyzer: [gitDiff] is the
    output of [git.diff(['HEAD^', 'HEAD', '--name-status'])] and
    [gitShow] that of [git.show([rev])], [None] when the call rejects;
    [parseFileWith] is [parseFile(path, content)], [None] when it
    throws; [pathResolve] is [path.resolve(process.cwd(), filePath)];
    [entryOption] is [options.entry] and [jsonStringify] is
    [JSON.stringify]. *)
Record Git := mkGit {
  gitDiff : option string;
  gitShow : string → option string;
  parseFileWith : string → string → option (list ImportInfo * list string);
  pathResolve : string → string;
  entryOption : string;
  jsonStringify : list FileChange → string }.

Definition tab : string := String (Ascii.ascii_of_nat 9) EmptyString.

(** [s.split(sep)] for a separator of one character: the pieces between
    the separators, empty ones included; never the empty array. *)
Fixpoint splitOn (sep : ascii) (s : string) : list string :=
  match s with
  | EmptyString => [""]
  | String c rest =>
      if bool_decide (c = sep) then "" :: splitOn sep rest
      else
        match splitOn sep rest with
        | piece :: pieces => String c piece :: pieces
        | [] => [String c ""]
        end
  end.

(** [diff.split('\n').filter(Boolean)]: the empty string is the one
    falsy string. *)
Definition diffLines (diff : string) : list string :=
  List.filter (λ line, negb (bool_decide (line = "")))
    (splitOn (Ascii.ascii_of_nat 10) diff).

(** [filePath.match(/\.(js|jsx|ts|tsx)$/)] as a condition. *)
Definition matchesSource (filePath : string) : bool :=
  hasExtension ".js" filePath || hasExtension ".jsx" filePath
  || hasExtension ".ts" filePath || hasExtension ".tsx" filePath.

(** The [switch (status[0])]: [None] is the [default] branch, taken
    also when [status] is empty. *)
Definition statusKind (status : string) : option ChangeKind :=
  match status with
  | String c _ =>
      if bool_decide (c = "A"%char) then Some KAdd
      else if bool_decide (c = "D"%char) then Some KDelete
      else if bool_decide (c = "M"%char) then Some KModify
      else None
  | EmptyString => None
  end.

(** [set.add(x)] on a [Set] kept as the list of its members in insertion
    order. *)
Definition setAdd (s : list string) (x : string) : list string :=
  if bool_decide (x ∈ s) then s else s ++ [x].

Section GitChanges.
Variable E : Collaborators.
Variable G : Git.

(** The [try] block of the ['M'] case: the value of [modifiedExports]
    after it, which is still [[]] when [git.show] or a [parseFile]
    throws. *)
Definition exportDiff (filePath absolutePath : string) : list string :=
  match gitShow G ("HEAD^:" +:+ filePath) with
  | Some prevContent =>
      let prevExports :=
        if negb (bool_decide (prevContent = "")) then
          match parseFileWith G absolutePath prevContent with
          | Some (_, exports) => Some (fold_left setAdd exports [])
          | None => None
          end
        else Some [] in
      match prevExports with
      | Some prevExports =>
          match parseFile E absolutePath with
          | Some (_, currentExports) =>
              List.filter (λ exp, negb (bool_decide (exp ∈ prevExports))) currentExports
              ++ List.filter (λ exp, negb (bool_decide (exp ∈ currentExports))) prevExports
          | None => []
          end
      | None => []
      end
  | None => []
  end.

(** [modifiedExports.length > 0 ? modifiedExports : undefined] *)
Definition orUndefined (modifiedExports : list string) : option (list string) :=
  match modifiedExports with
  | [] => None
  | _ :: _ => Some modifiedExports
  end.

(** The body of the loop over the lines; [continue] leaves [changes] as
    it is. *)
Definition changeOfLine (changes : list FileChange) (line : string) : list FileChange :=
  let parts := splitOn (Ascii.ascii_of_nat 9) line in
  let status := default "" (parts !! 0) in
  match parts !! 1 with
  | Some filePath =>
      if bool_decide (filePath = "") || negb (matchesSource filePath) then changes
      else
        let absolutePath := pathResolve G filePath in
        match statusKind status with
        | Some KAdd => changes ++ [mkFileChange absolutePath KAdd (orUndefined [])]
        | Some KDelete => changes ++ [mkFileChange absolutePath KDelete (orUndefined [])]
        | Some KModify =>
            changes ++ [mkFileChange absolutePath KModify
                          (orUndefined (exportDiff filePath absolutePath))]
        | None => changes
        end
  | None => changes
  end.

(** [getLastCommitChanges]: [None] when [git.diff] rejects. *)
Definition getLastCommitChanges : option (list FileChange) :=
  match gitDiff G with
  | Some diff => Some (fold_left changeOfLine (diffLines diff) [])
  | None => None
  end.

End GitChanges.

(** What [main] does: it returns after the message that nothing
    relevant changed, it spawns [npm] with these arguments, or its
    [catch] calls [process.exit(1)].  The spawned process and its
    ['error'] handler are outside the model. *)
Inductive MainOutcome :=
| NoRelevantChanges
| SpawnNpm (args : list string)
| Exit1.

Definition main (E : Collaborators) (G : Git) : MainOutcome :=
  match getLastCommitChanges E G with
  | Some [] => NoRelevantChanges
  | Some changes =>
      SpawnNpm ["run"; "analyze"; "--"; "-e"; entryOption G; "-f"; jsonStringify G changes]
  | None => Exit1
  end.

(** Whether [c] occurs in [s]. *)
Fixpoint containsChar (c : ascii) (s : string) : bool :=
  match s with
  | EmptyString => false
  | String c' rest => bool_decide (c' = c) || containsChar c rest
  end.

(** The started calls have as many child promises as the visited files
    have import targets. *)
Definition Counted (E : Collaborators) (changes : list FileChange)
    (v : gset string) (t : Task) : Prop :=
  Inv E changes v t
  ∧ sum_list_with (λ e : FileNode * list string, length e.2) (started t)
    = sum_list_with (λ f, length (visitFile E changes f).2) (elements v).

(** The import edges the traversal follows, and the files they lead to
    from a file. *)
Definition importEdge (E : Collaborators) (f p : string) : Prop :=
  p ∈ (visitFile E [] f).2.

Definition reachable (E : Collaborators) (f p : string) : Prop :=
  rtc (importEdge E) f p.

(** A last commit: [x.ts] modified, exporting [foo] and [baz] where it
    exported [foo] and [bar]; [y.ts] modified with its exports
    unchanged; a new asset and a new source file; a renamed file; a
    deleted one.  [git show] gives an empty previous [z.ts] and rejects
    for every other path. *)
Definition lastCommit : Git :=
  {| gitDiff :=
       Some (String.concat newline
               ["M" +:+ tab +:+ "x.ts"; "M" +:+ tab +:+ "y.ts";
                "A" +:+ tab +:+ "logo.png"; "A" +:+ tab +:+ "z.ts";
                "R100" +:+ tab +:+ "old.ts" +:+ tab +:+ "new.ts";
                "D" +:+ tab +:+ "broken.ts"; ""]);
     gitShow rev :=
       if bool_decide (rev = "HEAD^:x.ts") then Some "export foo, bar"
       else if bool_decide (rev = "HEAD^:y.ts") then Some "export y"
       else if bool_decide (rev = "HEAD^:z.ts") then Some ""
       else None;
     parseFileWith path content :=
       if bool_decide (content = "export foo, bar") then Some ([], ["foo"; "bar"])
       else if bool_decide (content = "export y") then Some ([], ["y"])
       else None;
     pathResolve filePath := "/p/" +:+ filePath;
     entryOption := "/p/entry.ts";
     jsonStringify changes := String.concat "," (changedFile <$> changes) |}.

(** [sample] with [x.ts] now exporting [foo] and [baz]. *)
Definition sampleNow : Collaborators :=
  project
    [("/p/entry.ts", Some ([mkImportInfo "./y" ["y"]; mkImportInfo "./z" ["z"]], []));
     ("/p/y.ts", Some ([mkImportInfo "./x" ["foo"]], ["y"]));
     ("/p/z.ts", Some ([mkImportInfo "./x" ["baz"]], ["z"]));
     ("/p/x.ts", Some ([], ["foo"; "baz"]))]
    [("/p/entry.ts", "./y", "/p/y.ts"); ("/p/entry.ts", "./z", "/p/z.ts");
     ("/p/y.ts", "./x", "/p/x.ts"); ("/p/z.ts", "./x", "/p/x.ts")].

(** A changed asset met twice: the entry imports [logo.png] and [a.ts],
    and [a.ts] imports [logo.png] again. *)
Definition logoTwice : Collaborators :=
  project
    [("/p/entry.ts",
      Some ([mkImportInfo "./logo.png" ["logo"]; mkImportInfo "./a" ["a"]], []));
     ("/p/a.ts", Some ([mkImportInfo "./logo.png" ["logo"]], ["a"]));
     ("/p/logo.png", None)]
    [("/p/entry.ts", "./logo.png", "/p/logo.png"); ("/p/entry.ts", "./a", "/p/a.ts");
     ("/p/a.ts", "./logo.png", "/p/logo.png")].

Definition logoTwiceOptions : AnalysisOptions :=
  mkAnalysisOptions "/p/entry.ts" [mkFileChange "/p/logo.png" KModify None].

(** The node the visit of [logo.png] produces, and the node of its
    second encounter. *)
Definition logoMarked : FileNode :=
  mkFileNode "/p/logo.png" asset None None (Some true) (Some KModify)
    (Some "Asset file was modifyd") [].

Definition logoStub : FileNode :=
  mkFileNode "/p/logo.png" asset None None None None None [].

Definition logoTwiceTree : FileNode :=
  mkFileNode "/p/entry.ts" js
    (Some [mkImportInfo "./logo.png" ["logo"]; mkImportInfo "./a" ["a"]]) (Some [])
    (Some true) None (Some "File 'logo.png' content was modified")
    [logoMarked;
     mkFileNode "/p/a.ts" js (Some [mkImportInfo "./logo.png" ["logo"]]) (Some ["a"])
       (Some true) None (Some "File 'logo.png' content was modified") [logoStub]].

(** ** Induction over nested trees *)

Lemma Task_nested_ind (P : Task → Prop) :
  (∀ f, P (Pending f)) →
  (∀ n kids, Forall P kids → P (Running n kids)) →
  ∀ t, P t.
Proof.
  intros HP HR. fix IH 1. intros [f | n kids]; [apply HP | apply HR].
  induction kids as [| kid kids IHkids]; constructor; [apply IH | exact IHkids].
Qed.

Lemma FileNode_nested_ind (P : FileNode → Prop) :
  (∀ n, Forall P (children n) → P n) → ∀ n, P n.
Proof.
  intros HN. fix IH 1. intros n. apply HN. destruct n as [? ? ? ? ? ? ? kids]; simpl.
  induction kids as [| kid kids IHkids]; constructor; [apply IH | exact IHkids].
Qed.

Lemma entry_leaf n m : entry n = (m, []) → n = m.
Proof.
  destruct n as [f t im ex af ct re cs]. unfold entry, withChildren. simpl.
  intros [= <- Hcs]. apply fmap_nil_inv in Hcs. by subst.
Qed.

Lemma entry_node n m fs : entry n = (m, fs) → withChildren [] n = m.
Proof. by intros [= <- _]. Qed.

Lemma subnodes_unfold n :
  subnodes n = n :: concat (subnodes <$> children n).
Proof. by destruct n. Qed.

Lemma pendingCount_length t : pendingCount t = length (pendings t).
Proof.
  induction t as [f | n kids IH] using Task_nested_ind; [done |]. simpl.
  induction IH as [| kid kids Hkid _ IHkids]; [done |]. csimpl.
  rewrite length_app. congruence.
Qed.

Lemma lookup_delete_app_l {A} (l1 l2 : list A) k :
  k < length l1 → delete k (l1 ++ l2) = delete k l1 ++ l2.
Proof.
  revert k. induction l1 as [| x l1 IH]; intros [| k] Hk; simpl in *; try lia; [done |].
  f_equal. apply IH. lia.
Qed.

Lemma lookup_delete_app_r {A} (l1 l2 : list A) k :
  length l1 ≤ k → delete k (l1 ++ l2) = l1 ++ delete (k - length l1) l2.
Proof.
  revert k. induction l1 as [| x l1 IH]; intros k Hk; simpl in *.
  - by rewrite Nat.sub_0_r.
  - destruct k as [| k]; [lia |]. simpl. f_equal. apply IH. lia.
Qed.

(** ** One step of the traversal, seen on the flattened state *)
Section Step.
Variable E : Collaborators.
Variable changes : list FileChange.

Lemma visitFile_file f : file (visitFile E changes f).1 = f.
Proof.
  unfold visitFile.
  repeat (case_match; simpl; try done).
Qed.

Lemma visitFile_children f : children (visitFile E changes f).1 = [].
Proof.
  unfold visitFile.
  repeat (case_match; simpl; try done).
Qed.

Lemma enterNode_file v f : file (enterNode E changes v f).1 = f.
Proof. unfold enterNode. case_bool_decide; [done | apply visitFile_file]. Qed.

Lemma enter_eq v f :
  enter E changes v f
  = (Running (enterNode E changes v f).1 (Pending <$> (enterNode E changes v f).2), {[f]} ∪ v).
Proof.
  unfold enter, enterNode. destruct (decide (f ∈ v)) as [Hin | Hin].
  - rewrite !bool_decide_eq_true_2 by done. simpl. f_equal.
    symmetry. apply subseteq_union_1_L. by apply singleton_subseteq_l.
  - rewrite !bool_decide_eq_false_2 by done. by destruct (visitFile E changes f).
Qed.

Lemma started_fresh n fs : started (Running n (Pending <$> fs)) = [(n, fs)].
Proof.
  simpl. f_equal.
  - f_equal. induction fs; csimpl; [done | by f_equal].
  - induction fs; csimpl; done.
Qed.

Lemma pendings_fresh n fs : pendings (Running n (Pending <$> fs)) = fs.
Proof. simpl. induction fs; csimpl; [done | by f_equal]. Qed.

Lemma advance_Running k v n kids :
  advance E changes k v (Running n kids)
  = (Running n (advanceAmong E changes v k kids).1, (advanceAmong E changes v k kids).2).
Proof.
  change (advance E changes k v (Running n kids))
    with (let (kids', v') := advanceAmong E changes v k kids in (Running n kids', v')).
  by destruct (advanceAmong E changes v k kids).
Qed.

Lemma advanceAmong_cons v k kid rest :
  advanceAmong E changes v k (kid :: rest)
  = if bool_decide (k < pendingCount kid) then
      let (kid', v') := advance E changes k v kid in (kid' :: rest, v')
    else
      let (rest', v') := advanceAmong E changes v (k - pendingCount kid) rest in
      (kid :: rest', v').
Proof. reflexivity. Qed.

(** The transition on the flattened state: the [k]-th pending file
    [f] is entered, [f] is visited from now on, one node is added, and
    the child promises of that node replace [f] among the pending
    files. *)
Lemma advance_spec t k v :
  k < pendingCount t →
  ∃ f, pendings t !! k = Some f
    ∧ (advance E changes k v t).2 = {[f]} ∪ v
    ∧ taskFile (advance E changes k v t).1 = taskFile t
    ∧ started (advance E changes k v t).1 ≡ₚ enterNode E changes v f :: started t
    ∧ pendings (advance E changes k v t).1
        ≡ₚ (enterNode E changes v f).2 ++ delete k (pendings t).
Proof.
  revert k. induction t as [f | n kids IH] using Task_nested_ind; intros k Hk.
  - simpl in Hk. assert (k = 0) as -> by lia. exists f.
    cbn [pendings advance]. rewrite enter_eq. cbn [fst snd].
    rewrite started_fresh, pendings_fresh, app_nil_r. cbn [taskFile started].
    rewrite enterNode_file. split_and!; try done. by destruct (enterNode E changes v f).
  - rewrite advance_Running. simpl.
    cut (∃ f, concat (pendings <$> kids) !! k = Some f
           ∧ (advanceAmong E changes v k kids).2 = {[f]} ∪ v
           ∧ taskFile <$> (advanceAmong E changes v k kids).1 = taskFile <$> kids
           ∧ concat (started <$> (advanceAmong E changes v k kids).1)
               ≡ₚ enterNode E changes v f :: concat (started <$> kids)
           ∧ concat (pendings <$> (advanceAmong E changes v k kids).1)
               ≡ₚ (enterNode E changes v f).2 ++ delete k (concat (pendings <$> kids))).
    { intros (f & Hf & Hv & Hfiles & Hst & Hpd). exists f.
      split_and!; try done.
      rewrite Hfiles, Hst. apply Permutation_swap. }
    simpl in Hk. revert k Hk.
    induction IH as [| kid kids Hkid _ IHkids]; intros k Hk; [simpl in Hk; lia |].
    rewrite advanceAmong_cons, !fmap_cons, !concat_cons.
    rewrite fmap_cons in Hk. cbn [sum_list sum_list_with id] in Hk.
    case_bool_decide as Hlt.
    + destruct (Hkid k Hlt) as (f & Hf & Hv & Hfile & Hst & Hpd).
      exists f. destruct (advance E changes k v kid) as [kid' v'] eqn:Hadv.
      cbn [fst snd] in *. rewrite pendingCount_length in Hlt.
      rewrite !fmap_cons, !concat_cons.
      split_and!.
      * by rewrite lookup_app_l.
      * done.
      * by rewrite Hfile.
      * by rewrite Hst.
      * rewrite Hpd, lookup_delete_app_l by done. by rewrite (assoc (++)).
    + destruct (IHkids (k - pendingCount kid)) as (f & Hf & Hv & Hfile & Hst & Hpd);
        [lia |].
      exists f.
      destruct (advanceAmong E changes v (k - pendingCount kid) kids)
        as [kids' v'] eqn:Hadv.
      cbn [fst snd] in *. rewrite pendingCount_length in Hlt, Hf, Hpd.
      rewrite !fmap_cons, !concat_cons.
      split_and!.
      * rewrite lookup_app_r by lia. done.
      * done.
      * by rewrite Hfile.
      * rewrite Hst. by rewrite Permutation_middle.
      * rewrite Hpd, lookup_delete_app_r by lia.
        rewrite !(assoc (++)). f_equiv. apply Permutation_app_comm.
Qed.

(** *** What a visit produces *)

Lemma importTarget_access f imp p :
  importTarget E f imp = Some p → access E p = true.
Proof.
  unfold importTarget. destruct (resolveImportPath E f (source imp) (rootDir E)) as [q |];
    simpl; [| done].
  case_match; [| done]. destruct (access E q) eqn:Hq; [| done]. by intros [= <-].
Qed.

Lemma childTargets_access f imps p :
  p ∈ childTargets E f imps → access E p = true.
Proof.
  unfold childTargets. rewrite list_elem_of_omap.
  intros (imp & _ & Himp). by eapply importTarget_access.
Qed.

Lemma visitFile_targets_access f p :
  p ∈ (visitFile E changes f).2 → access E p = true.
Proof.
  unfold visitFile.
  repeat (case_match; simpl; try (by intros ?%elem_of_nil));
    apply childTargets_access.
Qed.

Lemma visitFile_no_imports f :
  imports (visitFile E changes f).1 = None → (visitFile E changes f).2 = [].
Proof.
  unfold visitFile.
  repeat (case_match; simpl; try done).
Qed.

Lemma isStub_stubNode f : isStub E (stubNode E f) = true.
Proof. unfold isStub, stubNode. simpl. by apply bool_decide_eq_true_2. Qed.

Lemma isStub_eq n : isStub E n = true ↔ n = stubNode E (file n).
Proof.
  split.
  - unfold isStub, stubNode, bareNode. destruct n as [f t im ex af ct re cs]. simpl.
    destruct im, ex, af, ct, re, cs; try done.
    intros ->%bool_decide_eq_true. done.
  - intros ->. apply isStub_stubNode.
Qed.

Lemma Shape_enterNode v f : Shape E changes (enterNode E changes v f).
Proof.
  unfold Shape, enterNode. case_bool_decide; simpl.
  - by left.
  - right. by rewrite visitFile_file.
Qed.

Lemma Shape_children e : Shape E changes e → children e.1 = [].
Proof.
  intros [[-> _] | <-]; [done |]. apply visitFile_children.
Qed.

Lemma Shape_stub_leaf e : Shape E changes e → isStub E e.1 = true → e.2 = [].
Proof.
  intros [[_ ?] | <-] Hstub; [done |].
  apply visitFile_no_imports. unfold isStub in Hstub.
  by destruct (imports (visitFile E changes (file e.1)).1).
Qed.

End Step.

(** ** Invariants of the traversal *)
Section Invariants.
Variable E : Collaborators.
Variable changes : list FileChange.

#[local] Abbreviation Shape := (Shape E changes).
#[local] Abbreviation visitFile := (visitFile E changes).

Lemma Inv_initial entryFile :
  access E entryFile = true → Inv E changes ∅ (Pending entryFile).
Proof.
  intros Hacc. split; simpl.
  - constructor.
  - by intros e ?%elem_of_nil.
  - by intros f ?%elem_of_empty.
  - constructor.
  - by intros f ->%list_elem_of_singleton.
  - by intros f ?%elem_of_empty.
Qed.

Lemma Inv_advance k v t :
  Inv E changes v t → k < pendingCount t →
  Inv E changes (advance E changes k v t).2 (advance E changes k v t).1.
Proof.
  intros [Hshape Hvis Hfirst Honce Hpend Hacc] Hk.
  destruct (advance_spec E changes t k v Hk) as (f & Hf & -> & _ & Hst & Hpd).
  assert (Hfpend : f ∈ pendings t) by (by eapply list_elem_of_lookup_2).
  split.
  - rewrite Hst. constructor; [apply Shape_enterNode | done].
  - intros e. rewrite Hst, elem_of_cons. intros [-> | He].
    + rewrite enterNode_file. set_solver.
    + apply Hvis in He. set_solver.
  - intros f'. rewrite Hst, elem_of_union, elem_of_singleton, elem_of_cons.
    unfold enterNode. case_bool_decide as Hin.
    + intros [-> | Hf']; right; by apply Hfirst.
    + intros [-> | Hf']; [by left | right; by apply Hfirst].
  - unfold populated. rewrite Hst, filter_cons. case_decide as Hpop; [| done].
    rewrite fmap_cons. apply NoDup_cons. split; [| done].
    rewrite enterNode_file. intros (e & Hfe & He%list_elem_of_filter)%list_elem_of_fmap.
    destruct He as [_ He]. apply Hvis in He. rewrite <- Hfe in He.
    unfold enterNode in Hpop. rewrite bool_decide_eq_true_2 in Hpop by done.
    simpl in Hpop. by rewrite isStub_stubNode in Hpop.
  - intros p. rewrite Hpd, elem_of_app. intros [Hp | Hp].
    + unfold enterNode in Hp. case_bool_decide; [by apply elem_of_nil in Hp |].
      by eapply visitFile_targets_access.
    + apply Hpend. by eapply list_elem_of_delete_inv.
  - intros f'. rewrite elem_of_union, elem_of_singleton. intros [-> | Hf']; auto.
Qed.

(** *** From a finished traversal to its tree *)

Lemma settle_spec t tree :
  settle t = Some tree →
  file tree = taskFile t
  ∧ entry <$> subnodes tree = (λ e, (withChildren [] e.1, e.2)) <$> started t.
Proof.
  revert tree. induction t as [f | n kids IH] using Task_nested_ind; intros tree; [done |].
  simpl. destruct (mapM settle kids) as [cs |] eqn:Hcs; [| done]. intros [= <-].
  apply mapM_Some in Hcs. split; [done |].
  rewrite subnodes_unfold. cbn [children withChildren]. rewrite !fmap_cons.
  cbn [fst snd]. unfold entry at 1. cbn [children withChildren file].
  assert (file <$> cs = taskFile <$> kids
          ∧ entry <$> concat (subnodes <$> cs)
            = (λ e, (withChildren [] e.1, e.2)) <$> concat (started <$> kids))
    as [-> ->]; [| done].
  clear n. induction Hcs as [| kid c kids cs Hc _ IHcs]; [done |].
  apply Forall_cons in IH as [Hkid IH]. destruct (IHcs IH) as [Hfiles Hentries].
  destruct (Hkid c Hc) as [Hfile Hsub].
  rewrite !fmap_cons, !concat_cons, !fmap_app. split; [congruence |].
  by rewrite Hsub, Hentries.
Qed.

Lemma settle_done t : pendingCount t = 0 → is_Some (settle t).
Proof.
  induction t as [f | n kids IH] using Task_nested_ind; [done |].
  simpl. intros Hsum.
  assert (is_Some (mapM settle kids)) as [cs ->]; [| done].
  induction IH as [| kid kids Hkid _ IHkids]; [done |].
  rewrite fmap_cons in Hsum. cbn [sum_list sum_list_with id] in Hsum.
  destruct Hkid as [c Hc]; [lia |]. destruct IHkids as [cs Hcs]; [lia |].
  exists (c :: cs). apply mapM_Some. constructor; [done |]. by apply mapM_Some.
Qed.

Lemma started_entries t tree :
  Forall Shape (started t) → settle t = Some tree →
  entry <$> subnodes tree = started t.
Proof.
  intros Hshape [_ ->]%settle_spec.
  induction Hshape as [| e l He _ IH]; [done |].
  rewrite fmap_cons, IH. f_equal. destruct e as [n fs].
  apply Shape_children in He. simpl in *. destruct n; simpl in *. by subst.
Qed.

(** *** The traversal as a whole *)

Lemma run_unfold fuel sched v t :
  run E changes fuel sched v t
  = if bool_decide (pendingCount t = 0) then settle t
    else match fuel with
         | 0 => None
         | S fuel' =>
             let k := Nat.min (hd 0 sched) (pendingCount t - 1) in
             run E changes fuel' (tl sched)
               (advance E changes k v t).2 (advance E changes k v t).1
         end.
Proof.
  destruct fuel; [done |]. simpl.
  by destruct (advance E changes _ v t).
Qed.

Lemma run_final fuel sched v t tree :
  Inv E changes v t → run E changes fuel sched v t = Some tree →
  ∃ v' t', Inv E changes v' t' ∧ settle t' = Some tree ∧ taskFile t' = taskFile t ∧ v ⊆ v'.
Proof.
  revert sched v t. induction fuel as [| fuel IH]; intros sched v t Hinv;
    rewrite run_unfold; case_bool_decide as Hcount; try done.
  1, 2: by (intros Hsettle; exists v, t).
  intros Hrun.
  assert (Hk : Nat.min (hd 0 sched) (pendingCount t - 1) < pendingCount t) by lia.
  apply IH in Hrun as (v' & t' & Hinv' & Hsettle & Hfile & Hsub);
    [| by apply Inv_advance].
  destruct (advance_spec E changes t _ v Hk) as (f & _ & Hv & Hroot & _).
  exists v', t'. split_and!; [done | done | congruence |].
  rewrite Hv in Hsub. set_solver.
Qed.

Lemma visited_grows (U v : gset string) f :
  f ∈ U → f ∉ v → size (U ∖ ({[f]} ∪ v)) < size (U ∖ v).
Proof. intros HU Hv. apply subset_size. set_solver. Qed.

(** The traversal finishes under every schedule when the files it can
    reach lie in a finite set [U]. *)
Lemma run_terminates (U : gset string) sched v t :
  (∀ f p, f ∈ U → p ∈ (visitFile f).2 → p ∈ U) →
  (∀ f, f ∈ pendings t → f ∈ U) →
  ∃ fuel tree, run E changes fuel sched v t = Some tree.
Proof.
  intros HU.
  remember (size (U ∖ v)) as a eqn:Ha. revert sched v t Ha.
  induction a as [a IHa] using lt_wf_ind. intros sched v t.
  remember (length (pendings t)) as b eqn:Hb. revert sched t Hb.
  induction b as [b IHb] using lt_wf_ind. intros sched t -> -> Hpend.
  destruct (decide (pendingCount t = 0)) as [Hcount | Hcount].
  { destruct (settle_done t Hcount) as [tree Htree]. exists 0, tree.
    by rewrite run_unfold, bool_decide_eq_true_2. }
  set (k := Nat.min (hd 0 sched) (pendingCount t - 1)).
  assert (Hk : k < pendingCount t) by (unfold k; lia).
  destruct (advance_spec E changes t k v Hk) as (f & Hf & Hv & _ & _ & Hpd).
  assert (HfU : f ∈ U) by (by eapply Hpend, list_elem_of_lookup_2).
  assert (Hpend' : ∀ p, p ∈ pendings (advance E changes k v t).1 → p ∈ U).
  { intros p. rewrite Hpd, elem_of_app. intros [Hp | Hp].
    - unfold enterNode in Hp. case_bool_decide; [by apply elem_of_nil in Hp |].
      by eapply HU.
    - by eapply Hpend, list_elem_of_delete_inv. }
  assert (∃ fuel tree, run E changes fuel (tl sched)
            (advance E changes k v t).2 (advance E changes k v t).1 = Some tree)
    as (fuel & tree & Hrun).
  { destruct (decide (f ∈ v)) as [Hin | Hin].
    - assert ((advance E changes k v t).2 = v) as Hsame.
      { rewrite Hv. apply subseteq_union_1_L. by apply singleton_subseteq_l. }
      rewrite Hsame in *. eapply IHb; [| done | done | done].
      rewrite Hpd. unfold enterNode. rewrite bool_decide_eq_true_2 by done.
      simpl. rewrite length_delete by (by rewrite Hf).
      apply lookup_lt_Some in Hf. lia.
    - eapply IHa; [| done | done]. rewrite Hv. by apply visited_grows. }
  exists (S fuel), tree. rewrite run_unfold, bool_decide_eq_false_2 by done. done.
Qed.

(** *** What every finished tree satisfies *)

Lemma populated_entries l :
  Forall (λ n, Shape (entry n)) l →
  (λ e, file e.1) <$> populated E (entry <$> l)
  = file <$> filter (λ n, isStub E n = false) l.
Proof.
  unfold populated. induction 1 as [| n l Hn _ IH]; [done |].
  rewrite fmap_cons, !filter_cons.
  assert (isStub E (entry n).1 = isStub E n) as Hsame.
  { destruct (isStub E (entry n).1) eqn:Hstub.
    - apply (Shape_stub_leaf _ _ _ Hn) in Hstub as Hleaf.
      apply fmap_nil_inv in Hleaf.
      destruct n; simpl in *. by subst.
    - destruct n as [f t im ex af ct re cs]. unfold isStub in *. simpl in *.
      by destruct im, ex, af, ct, re, cs. }
  rewrite Hsame. case_decide; [| done].
  by rewrite !fmap_cons, IH.
Qed.

Lemma Inv_TreeOk v t tree : Inv E changes v t → settle t = Some tree → TreeOk E changes tree.
Proof.
  intros [Hshape Hvis Hfirst Honce Hpend Hacc] Hsettle.
  pose proof (started_entries t tree Hshape Hsettle) as Hentries.
  assert (Hsh : Forall (λ n, Shape (entry n)) (subnodes tree)).
  { apply Forall_forall. intros n Hn. rewrite Forall_forall in Hshape.
    apply Hshape. rewrite <- Hentries. by apply list_elem_of_fmap_2. }
  split.
  - by apply Forall_forall.
  - rewrite <- populated_entries, Hentries; done.
  - intros n Hn.
    assert (visitFile (file n) ∈ entry <$> subnodes tree) as Hin.
    { rewrite Hentries. apply Hfirst, (Hvis (entry n)).
      rewrite <- Hentries. by apply list_elem_of_fmap_2. }
    apply list_elem_of_fmap in Hin as (n' & Heq & Hn'). by exists n'.
  - intros n Hn. apply Hacc, (Hvis (entry n)).
    rewrite <- Hentries. by apply list_elem_of_fmap_2.
Qed.

End Invariants.

(** ** The classifier and the formatter as list comprehensions *)
Section ClassifierFacts.
Variable E : Collaborators.

Lemma classifyImport_acc f c acc imp :
  classifyImport E f c acc imp = acc ++ classifyImport E f c [] imp.
Proof.
  unfold classifyImport. repeat case_match; simpl; by rewrite ?app_nil_r.
Qed.

Lemma classify_imports f c imps acc :
  fold_left (classifyImport E f c) imps acc
  = acc ++ (imps ≫= classifyImport E f c []).
Proof.
  revert acc. induction imps as [| imp imps IH]; intros acc; csimpl.
  - by rewrite app_nil_r.
  - rewrite IH, classifyImport_acc. by rewrite (assoc (++)).
Qed.

(** Entries come out change by change and, within a change, import by
    import. *)
Lemma determineAffectingChanges_flat f changes imps :
  determineAffectingChanges E f changes imps
  = changes ≫= (λ c, imps ≫= classifyImport E f c []).
Proof.
  unfold determineAffectingChanges.
  cut (∀ acc, fold_left (λ acc c, fold_left (classifyImport E f c) imps acc) changes acc
              = acc ++ (changes ≫= (λ c, imps ≫= classifyImport E f c []))).
  { intros H. by rewrite H. }
  induction changes as [| c changes IH]; intros acc; csimpl.
  - by rewrite app_nil_r.
  - rewrite IH, classify_imports. by rewrite (assoc (++)).
Qed.

Lemma determineImpactReason_lines f entries imps :
  determineImpactReason E f entries imps
  = String.concat newline (reasonLine E <$> entries).
Proof.
  unfold determineImpactReason. f_equal.
  cut (∀ acc, fold_left (λ reasons a, reasons ++ [reasonLine E a]) entries acc
              = acc ++ (reasonLine E <$> entries)).
  { intros H. by rewrite H. }
  induction entries as [| a entries IH]; intros acc; csimpl.
  - by rewrite app_nil_r.
  - rewrite IH. by rewrite <- (assoc (++)).
Qed.

Lemma elem_of_determineAffectingChanges f changes imps a :
  a ∈ determineAffectingChanges E f changes imps
  ↔ ∃ c imp, c ∈ changes ∧ imp ∈ imps ∧ a ∈ classifyImport E f c [] imp.
Proof.
  rewrite determineAffectingChanges_flat, list_elem_of_bind. split.
  - intros (c & (imp & Ha & Himp)%list_elem_of_bind & Hc). by exists c, imp.
  - intros (c & imp & Hc & Himp & Ha). exists c. split; [| done].
    apply list_elem_of_bind. by exists imp.
Qed.

Lemma classifyImport_elem f c imp a :
  a ∈ classifyImport E f c [] imp →
  change a = c
  ∧ resolveImportPath E f (source imp) (rootDir E) = Some (changedFile c)
  ∧ (if bool_decide (changeType c = KModify) && hasModifiedExports c then
       importedSpecifiers a = List.filter (modifiedIncludes c) (specifiers imp)
       ∧ importedSpecifiers a ≠ []
     else importedSpecifiers a = specifiers imp).
Proof.
  unfold classifyImport. case_bool_decide as Hres; [| by intros ?%elem_of_nil].
  destruct (bool_decide (changeType c = KModify) && hasModifiedExports c).
  - case_bool_decide as Hlen; [| by intros ?%elem_of_nil].
    intros ->%list_elem_of_singleton. simpl. split_and!; try done.
    intros Hnil. rewrite Hnil in Hlen. simpl in Hlen. lia.
  - by intros ->%list_elem_of_singleton.
Qed.

Lemma classifyImport_unrelated f c imp :
  resolveImportPath E f (source imp) (rootDir E) ≠ Some (changedFile c) →
  classifyImport E f c [] imp = [].
Proof. intros Hne. unfold classifyImport. by rewrite bool_decide_eq_false_2. Qed.

Lemma classifyImport_fine f c m imp :
  resolveImportPath E f (source imp) (rootDir E) = Some (changedFile c) →
  changeType c = KModify → modifiedExports c = Some m → m ≠ [] →
  classifyImport E f c [] imp
  = if decide (intersection imp m = []) then []
    else [mkAffectingImport c (intersection imp m)].
Proof.
  intros Hres Hkind Hm Hne. unfold classifyImport, hasModifiedExports, intersection.
  rewrite !bool_decide_eq_true_2 by done. rewrite Hm.
  destruct m as [| x m]; [done |]. cbn [andb app].
  replace (modifiedIncludes c) with (λ spec, bool_decide (spec ∈ x :: m))
    by (unfold modifiedIncludes; by rewrite Hm).
  destruct (List.filter _ (specifiers imp)) as [| s l] eqn:Hfil; [done |].
  rewrite bool_decide_eq_true_2 by (simpl; lia). done.
Qed.

Lemma coarse_spec c :
  coarse c ↔ bool_decide (changeType c = KModify) && hasModifiedExports c = false.
Proof.
  unfold coarse, hasModifiedExports.
  destruct (changeType c), (modifiedExports c) as [[| x m] |]; simpl; naive_solver.
Qed.

Lemma classifyImport_coarse f c imp :
  resolveImportPath E f (source imp) (rootDir E) = Some (changedFile c) →
  coarse c →
  classifyImport E f c [] imp = [mkAffectingImport c (specifiers imp)].
Proof.
  intros Hres Hc%coarse_spec. unfold classifyImport.
  rewrite bool_decide_eq_true_2 by done. by rewrite Hc.
Qed.

End ClassifierFacts.

(** ** Facts about one visit *)
Section VisitFacts.
Variable E : Collaborators.
Variable changes : list FileChange.

Lemma visitFile_parsed f imps exps :
  access E f = true → isJavaScriptFile E f = true → shouldIgnoreFile E f = false →
  parseFile E f = Some (imps, exps) →
  visitFile E changes f
  = (let node := withExports exps (withImports imps (stamped E changes f)) in
     let entries := determineAffectingChanges E f changes imps in
     if bool_decide (0 < length entries) then
       withReason (determineImpactReason E f entries imps) (withIsAffected true node)
     else node,
     childTargets E f imps).
Proof.
  intros Hacc Hjs Hign Hparse. unfold visitFile, stamped, fileType.
  rewrite Hacc, Hjs, Hign, Hparse.
  by destruct (findChange changes f).
Qed.

Lemma visitFile_unparsed f :
  access E f = true → isJavaScriptFile E f = true → shouldIgnoreFile E f = false →
  parseFile E f = None →
  visitFile E changes f = (stamped E changes f, []).
Proof.
  intros Hacc Hjs Hign Hparse. unfold visitFile, stamped, fileType.
  rewrite Hacc, Hjs, Hign, Hparse.
  by destruct (findChange changes f).
Qed.

Lemma visitFile_ignored f :
  access E f = true → isJavaScriptFile E f = true → shouldIgnoreFile E f = true →
  visitFile E changes f = (stamped E changes f, []).
Proof.
  intros Hacc Hjs Hign. unfold visitFile, stamped, fileType.
  rewrite Hacc, Hjs, Hign.
  by destruct (findChange changes f).
Qed.

Lemma visitFile_asset f :
  access E f = true → isJavaScriptFile E f = false →
  visitFile E changes f
  = (match findChange changes f with
     | Some c =>
         withReason ("Asset file was " +:+ kindText (changeType c) +:+ "d")
           (withIsAffected true (stamped E changes f))
     | None => stamped E changes f
     end, []).
Proof.
  intros Hacc Hjs. unfold visitFile, stamped, fileType.
  rewrite Hacc, Hjs.
  by destruct (findChange changes f).
Qed.

Lemma visitFile_inaccessible f :
  access E f = false → visitFile E changes f = (bareNode f asset, []).
Proof. intros Hacc. unfold visitFile. by rewrite Hacc. Qed.

Lemma visitFile_type f :
  access E f = true → type (visitFile E changes f).1 = fileType E f.
Proof.
  intros Hacc. unfold visitFile. rewrite Hacc.
  repeat (case_match; simpl; try done).
Qed.

Lemma visitFile_isAffected f : isAffected (visitFile E changes f).1 ≠ Some false.
Proof.
  unfold visitFile.
  repeat (case_match; simpl; try done).
Qed.


Lemma node_cases tree n :
  TreeOk E changes tree → n ∈ subnodes tree →
  n = stubNode E (file n) ∨ entry n = visitFile E changes (file n).
Proof.
  intros Hok Hn. destruct (tree_shape _ _ _ Hok n Hn) as [[Hstub Hleaf] | Hfull].
  - left. apply fmap_nil_inv in Hleaf.
    destruct n; simpl in *. subst. exact Hstub.
  - by right.
Qed.

End VisitFacts.

(** ** [analyzeProject] *)

Lemma analyzeProject_tree E fuel sched options tree :
  analyzeProject E fuel sched options = Some (inr tree) →
  access E (entryFile options) = true
  ∧ file tree = entryFile options
  ∧ TreeOk E (changes options) tree.
Proof.
  unfold analyzeProject. destruct (access E (entryFile options)) eqn:Hacc; [| done].
  unfold buildDependencyTree.
  destruct (run _ _ _ _ _ _) as [tree' |] eqn:Hrun; [| done]. intros [= ->].
  apply run_final in Hrun as (v & t & Hinv & Hsettle & Hfile & _);
    [| by apply Inv_initial].
  split_and!; [done | | by eapply Inv_TreeOk].
  apply settle_spec in Hsettle as [-> _]. done.
Qed.

Lemma analyzeProject_returns E (U : gset string) sched options :
  (∀ f p, f ∈ U → p ∈ (visitFile E (changes options) f).2 → p ∈ U) →
  entryFile options ∈ U →
  access E (entryFile options) = true →
  ∃ fuel tree, analyzeProject E fuel sched options = Some (inr tree).
Proof.
  intros HU Hentry Hacc.
  destruct (run_terminates E (changes options) U sched ∅ (Pending (entryFile options)))
    as (fuel & tree & Hrun); [done | |].
  { by intros f ->%list_elem_of_singleton. }
  exists fuel, tree. unfold analyzeProject, buildDependencyTree. by rewrite Hacc, Hrun.
Qed.


(** A listed disk has finitely many accessible files. *)
Lemma project_finite disk links f :
  access (project disk links) f = true → f ∈ (list_to_set disk.*1 : gset string).
Proof. simpl. intros Hf%bool_decide_eq_true. by apply elem_of_list_to_set. Qed.

(** ** Properties of the returned tree *)


(** C9: in every node of every tree [analyzeProject] returns,
    [isAffected] is absent or [true]; it is never [false]. *)
Theorem isAffected_absent_or_true E fuel sched options tree :
  analyzeProject E fuel sched options = Some (inr tree) →
  ∀ n, n ∈ subnodes tree → isAffected n = None ∨ isAffected n = Some true.
Proof.
  intros (_ & _ & Hok)%analyzeProject_tree n Hn.
  assert (isAffected n ≠ Some false) as Hne.
  { destruct (node_cases _ _ _ _ Hok Hn) as [-> | Hfull]; [done |].
    change (isAffected n) with (isAffected (entry n).1). rewrite Hfull.
    apply visitFile_isAffected. }
  destruct (isAffected n) as [[|] |]; auto. done.
Qed.

Lemma isAffected_absent_or_true_witness :
  analyzeProject sample 8 [] sampleOptions = Some (inr sampleTree)
  ∧ ∀ n, n ∈ subnodes sampleTree → isAffected n = None ∨ isAffected n = Some true.
Proof.
  split; [vm_compute; reflexivity |].
  apply (isAffected_absent_or_true sample 8 [] sampleOptions sampleTree).
  vm_compute. reflexivity.
Defined.



Lemma find_first {A} (p : A → bool) (l : list A) x :
  List.find p l = Some x →
  ∃ pre post, l = pre ++ x :: post ∧ p x = true ∧ ∀ y, y ∈ pre → p y = false.
Proof.
  induction l as [| z l IH]; simpl; [done |]. destruct (p z) eqn:Hz.
  - intros [= ->]. exists [], l. split_and!; [done | done |]. by intros y ?%elem_of_nil.
  - intros (pre & post & -> & Hx & Hpre)%IH. exists (z :: pre), post.
    split_and!; [done | done |]. intros y [-> | Hy]%elem_of_cons; auto.
Qed.

Lemma find_none_all {A} (p : A → bool) (l : list A) :
  List.find p l = None → ∀ y, y ∈ l → p y = false.
Proof.
  induction l as [| z l IH]; simpl; [by intros _ y ?%elem_of_nil |].
  destruct (p z) eqn:Hz; [done |]. intros Hl y [-> | Hy]%elem_of_cons; auto.
Qed.

Lemma findChange_first changes f pre c post :
  changes = pre ++ c :: post → (∀ c', c' ∈ pre → changedFile c' ≠ f) →
  changedFile c = f → findChange changes f = Some c.
Proof.
  intros -> Hpre Hc. unfold findChange.
  induction pre as [| c' pre IH]; simpl.
  - by rewrite bool_decide_eq_true_2.
  - rewrite bool_decide_eq_false_2 by (apply Hpre; left).
    apply IH. intros c'' Hc''. apply Hpre. by right.
Qed.

Lemma findChange_is_Some changes f :
  is_Some (findChange changes f) ↔ ∃ c, c ∈ changes ∧ changedFile c = f.
Proof.
  unfold findChange. split.
  - intros [c Hfind].
    apply find_first in Hfind as (pre & post & -> & Hc%bool_decide_eq_true & _).
    exists c. split; [| done]. apply elem_of_app. right. left.
  - intros (c & Hc & Hfile).
    destruct (List.find _ changes) as [c' |] eqn:Hfind; [by eexists |].
    apply (find_none_all _ _ Hfind c) in Hc. by apply bool_decide_eq_false in Hc.
Qed.

Lemma visit_affected_iff E changes f :
  access E f = true →
  isAffected (visitFile E changes f).1 = Some true
  ↔ changedAsset E changes f ∨ affectedByImport E changes f.
Proof.
  intros Hacc. unfold changedAsset, affectedByImport.
  rewrite <- findChange_is_Some.
  destruct (isJavaScriptFile E f) eqn:Hjs.
  - destruct (shouldIgnoreFile E f) eqn:Hign.
    { rewrite visitFile_ignored by done. unfold stamped. simpl.
      destruct (findChange changes f); naive_solver. }
    destruct (parseFile E f) as [[imps exps] |] eqn:Hparse.
    + rewrite (visitFile_parsed _ _ _ imps exps) by done. cbn [fst].
      destruct (determineAffectingChanges E f changes imps) as [| a l] eqn:Hent.
      * simpl. unfold stamped. destruct (findChange changes f); naive_solver.
      * rewrite bool_decide_eq_true_2 by (simpl; lia). simpl. split; [| done].
        intros _. right. exists imps, exps. by rewrite Hent.
    + rewrite visitFile_unparsed by done. unfold stamped. simpl.
      destruct (findChange changes f); naive_solver.
  - rewrite visitFile_asset by done. unfold stamped.
    destruct (findChange changes f) as [c |]; simpl; [| naive_solver].
    split; [| done]. intros _. left. eauto.
Qed.

(** C10: every node of the returned tree is the node the visit of its
    file produced or the bare stub of a later encounter of that file,
    and it has [isAffected = true] exactly when a visit produced it and
    either its file is an asset that is the [changedFile] of a Change
    Set entry, or it is a parsed code file for which the classifier
    reports at least one affecting import.  A visited asset that a
    Change Set entry names is marked, carries the reason "Asset file was
    {changeType}d" with the kind of the first such entry, and has no
    children, whatever the change kind; a visited code file that a
    Change Set entry names but for which the classifier reports nothing
    has the [changeType] and the default reason of the first such entry,
    and its [isAffected] stays absent. *)
Theorem affected_in_two_situations E fuel sched options tree :
  analyzeProject E fuel sched options = Some (inr tree) →
  ∀ n, n ∈ subnodes tree →
    let changes := changes options in
    let visited := entry n = visitFile E changes (file n) in
    (visited ∨ n = stubNode E (file n))
    ∧ (isAffected n = Some true
       ↔ visited ∧ (changedAsset E changes (file n) ∨ affectedByImport E changes (file n)))
    ∧ (∀ pre c post, visited → isJavaScriptFile E (file n) = false →
         changes = pre ++ c :: post →
         (∀ c', c' ∈ pre → changedFile c' ≠ file n) → changedFile c = file n →
         isAffected n = Some true ∧ type n = asset
         ∧ reason n = Some ("Asset file was " +:+ kindText (changeType c) +:+ "d")
         ∧ children n = [])
    ∧ (∀ pre c post imps exps, visited →
         isJavaScriptFile E (file n) = true → shouldIgnoreFile E (file n) = false →
         parseFile E (file n) = Some (imps, exps) →
         changes = pre ++ c :: post →
         (∀ c', c' ∈ pre → changedFile c' ≠ file n) → changedFile c = file n →
         determineAffectingChanges E (file n) changes imps = [] →
         isAffected n = None ∧ nodeChangeType n = Some (changeType c)
         ∧ reason n = Some ("File was " +:+ kindText (changeType c) +:+ "d")).
Proof.
  intros (_ & _ & Hok)%analyzeProject_tree n Hn. cbv zeta.
  pose proof (tree_access _ _ _ Hok n Hn) as Hacc.
  split_and!.
  - destruct (node_cases _ _ _ _ Hok Hn); auto.
  - split.
    + intros Haff.
      assert (entry n = visitFile E (changes options) (file n)) as Hvis.
      { destruct (node_cases _ _ _ _ Hok Hn) as [Hstub | Hfull]; [| done].
        by rewrite Hstub in Haff. }
      split; [done |]. apply visit_affected_iff; [done |]. by rewrite <- Hvis.
    + intros [Hvis Hsit]. apply visit_affected_iff in Hsit; [| done].
      by rewrite <- Hvis in Hsit.
  - intros pre c post Hvis Hjs Hsplit Hpre Hfile.
    pose proof (findChange_first _ _ _ _ _ Hsplit Hpre Hfile) as Hc.
    rewrite visitFile_asset in Hvis by done. rewrite Hc in Hvis.
    unfold stamped, fileType in Hvis. rewrite Hc, Hjs in Hvis.
    apply entry_leaf in Hvis. by rewrite Hvis.
  - intros pre c post imps exps Hvis Hjs Hign Hparse Hsplit Hpre Hfile Hent.
    pose proof (findChange_first _ _ _ _ _ Hsplit Hpre Hfile) as Hc.
    rewrite (visitFile_parsed _ _ _ imps exps) in Hvis by done.
    cbv zeta in Hvis. rewrite Hent in Hvis. simpl in Hvis.
    unfold stamped in Hvis. rewrite Hc in Hvis.
    apply entry_node in Hvis.
    pose proof (f_equal isAffected Hvis) as Haff.
    pose proof (f_equal nodeChangeType Hvis) as Hkind.
    pose proof (f_equal reason Hvis) as Hreason.
    simpl in Haff, Hkind, Hreason. done.
Qed.

Lemma affected_in_two_situations_witness :
  analyzeProject sample 8 [] sampleOptions = Some (inr sampleTree)
  ∧ ∀ n, n ∈ subnodes sampleTree →
    let changes := changes sampleOptions in
    let visited := entry n = visitFile sample changes (file n) in
    (visited ∨ n = stubNode sample (file n))
    ∧ (isAffected n = Some true
       ↔ visited ∧ (changedAsset sample changes (file n)
                    ∨ affectedByImport sample changes (file n)))
    ∧ (∀ pre c post, visited → isJavaScriptFile sample (file n) = false →
         changes = pre ++ c :: post →
         (∀ c', c' ∈ pre → changedFile c' ≠ file n) → changedFile c = file n →
         isAffected n = Some true ∧ type n = asset
         ∧ reason n = Some ("Asset file was " +:+ kindText (changeType c) +:+ "d")
         ∧ children n = [])
    ∧ (∀ pre c post imps exps, visited →
         isJavaScriptFile sample (file n) = true →
         shouldIgnoreFile sample (file n) = false →
         parseFile sample (file n) = Some (imps, exps) →
         changes = pre ++ c :: post →
         (∀ c', c' ∈ pre → changedFile c' ≠ file n) → changedFile c = file n →
         determineAffectingChanges sample (file n) changes imps = [] →
         isAffected n = None ∧ nodeChangeType n = Some (changeType c)
         ∧ reason n = Some ("File was " +:+ kindText (changeType c) +:+ "d")).
Proof.
  split; [vm_compute; reflexivity |].
  apply (affected_in_two_situations sample 8 [] sampleOptions sampleTree).
  vm_compute. reflexivity.
Defined.

(** The claim fails at the second encounter of a file: [logo.png] is an
    asset that the Change Set names, the entry and [a.ts] both import
    it, and the node under [a.ts] is the bare stub, without [isAffected]
    and without a reason; only the node of the first encounter is
    marked. *)
Lemma changed_asset_second_encounter_unmarked :
  analyzeProject logoTwice 8 [] logoTwiceOptions = Some (inr logoTwiceTree)
  ∧ children logoTwiceTree !! 0 = Some logoMarked
  ∧ (children logoTwiceTree !! 1 ≫= λ a, children a !! 0) = Some logoStub
  ∧ logoStub ∈ subnodes logoTwiceTree
  ∧ type logoStub = asset
  ∧ isJavaScriptFile logoTwice (file logoStub) = false
  ∧ mkFileChange "/p/logo.png" KModify None ∈ changes logoTwiceOptions
  ∧ changedFile (mkFileChange "/p/logo.png" KModify None) = file logoStub
  ∧ changedAsset logoTwice (changes logoTwiceOptions) (file logoStub)
  ∧ isAffected logoStub = None
  ∧ reason logoStub = None
  ∧ isAffected logoMarked = Some true.
Proof.
  split; [vm_compute; reflexivity |].
  split; [reflexivity |]. split; [reflexivity |].
  split; [do 3 apply list_elem_of_further; apply list_elem_of_here |].
  split; [reflexivity |]. split; [reflexivity |].
  split; [apply list_elem_of_here |]. split; [reflexivity |].
  split; [| by split_and!].
  split; [reflexivity |]. eexists. split; [apply list_elem_of_here | reflexivity].
Qed.


Lemma accessible_closed E changes (U : gset string) :
  (∀ f, access E f = true → f ∈ U) →
  ∀ f p, f ∈ U → p ∈ (visitFile E changes f).2 → p ∈ U.
Proof. intros HU f p _ Hp. by eapply HU, visitFile_targets_access. Qed.



(** The entry file missing: the one failure that aborts. *)
Example missing_entry_aborts :
  analyzeProject sample 9 [] (mkAnalysisOptions "/p/main.ts" sampleChanges)
  = Some (inl "Failed to analyze project: ENOENT: no such file or directory, access '/p/main.ts'").
Proof. vm_compute. reflexivity. Qed.

(** In [sample]: the changed asset is affected with the asset reason
    and is a leaf; [y.ts], changed and importing the modified [x.ts]
    without naming a modified export, keeps the default reason and is
    not marked. *)
Example sample_changed_asset_and_changed_code :
  children sampleTree !! 2
  = Some (mkFileNode "/p/logo.png" asset None None (Some true) (Some KAdd)
            (Some "Asset file was addd") [])
  ∧ children sampleTree !! 0
    = Some (mkFileNode "/p/y.ts" js (Some [mkImportInfo "./x" ["bar"]]) (Some ["y"])
              None (Some KModify) (Some "File was modifyd")
              [mkFileNode "/p/x.ts" js (Some []) (Some ["foo"; "bar"])
                 None (Some KModify) (Some "File was modifyd") []]).
Proof. split; reflexivity. Qed.

(** ** Cycles *)

(** C4: on a finite file system the traversal terminates under every
    schedule, cycles or not; a call that finds its file in [visited]
    returns the stub (the file, its type, no children and no other
    field); in the returned tree at most one node per file is not such a
    stub, and all nodes of a file have the type of the file. *)
Theorem cycles_end_in_stubs E (U : gset string) sched options :
  (∀ f, access E f = true → f ∈ U) →
  access E (entryFile options) = true →
  (∃ fuel tree, analyzeProject E fuel sched options = Some (inr tree))
  ∧ (∀ fuel tree, analyzeProject E fuel sched options = Some (inr tree) →
       NoDup (file <$> filter (λ n, isStub E n = false) (subnodes tree))
       ∧ ∀ n, n ∈ subnodes tree → type n = fileType E (file n))
  ∧ (∀ visited f, f ∈ visited →
       enter E (changes options) visited f
       = (Running (mkFileNode f (if isJavaScriptFile E f then js else asset)
                     None None None None None []) [], visited))
  ∧ (∀ n, isStub E n = true
       ↔ n = mkFileNode (file n) (if isJavaScriptFile E (file n) then js else asset)
               None None None None None []).
Proof.
  intros HU Hacc. split_and!.
  - apply (analyzeProject_returns E U); [| by apply HU | done].
    by apply accessible_closed.
  - intros fuel tree (_ & _ & Hok)%analyzeProject_tree.
    split; [apply (tree_once _ _ _ Hok) |]. intros n Hn.
    destruct (node_cases _ _ _ _ Hok Hn) as [-> | Hfull]; [done |].
    change (type n) with (type (entry n).1). rewrite Hfull.
    apply visitFile_type, (tree_access _ _ _ Hok n Hn).
  - intros visited f Hf. unfold enter. by rewrite bool_decide_eq_true_2.
  - apply isStub_eq.
Qed.

Lemma cycles_end_in_stubs_witness :
  (∀ f, access cycle f = true → f ∈ cycleFiles)
  ∧ access cycle (entryFile cycleOptions) = true
  ∧ (∃ fuel tree, analyzeProject cycle fuel [] cycleOptions = Some (inr tree))
  ∧ (∀ fuel tree, analyzeProject cycle fuel [] cycleOptions = Some (inr tree) →
       NoDup (file <$> filter (λ n, isStub cycle n = false) (subnodes tree))
       ∧ ∀ n, n ∈ subnodes tree → type n = fileType cycle (file n)).
Proof.
  split; [apply project_finite |]. split; [reflexivity |].
  pose proof (cycles_end_in_stubs cycle cycleFiles [] cycleOptions
                (project_finite _ _) eq_refl) as (Hend & Honce & _).
  split; [exact Hend | exact Honce].
Defined.

(** The cycle itself: [a.ts], its child [b.ts], and under it the stub
    that ends the recursion. *)
Example cycle_tree :
  analyzeProject cycle 3 [] cycleOptions
  = Some (inr
      (mkFileNode "/p/a.ts" js (Some [mkImportInfo "./b" ["b"]]) (Some ["a"])
         None None None
         [mkFileNode "/p/b.ts" js (Some [mkImportInfo "./a" ["a"]]) (Some ["b"])
            None None None
            [mkFileNode "/p/a.ts" js None None None None None []]])).
Proof. vm_compute. reflexivity. Qed.

(** ** Fine-grained and coarse-grained classification *)

(** C2: for a [modify] change with a non-empty [modifiedExports] and an
    import that resolves to the changed file, the import is affecting
    exactly when it names a modified export, and the names in common are
    what is recorded; a file whose one import names none of them is not
    marked affected, and one that names some is marked affected with a
    reason that lists them. *)
Theorem fine_grained_modify E f c m imp exps :
  changeType c = KModify → modifiedExports c = Some m → m ≠ [] →
  resolveImportPath E f (source imp) (rootDir E) = Some (changedFile c) →
  access E f = true → isJavaScriptFile E f = true → shouldIgnoreFile E f = false →
  parseFile E f = Some ([imp], exps) →
  let common := intersection imp m in
  (∀ changes imports, c ∈ changes → imp ∈ imports →
     (common ≠ []
      ↔ mkAffectingImport c common ∈ determineAffectingChanges E f changes imports))
  ∧ determineAffectingChanges E f [c] [imp]
    = (if decide (common = []) then [] else [mkAffectingImport c common])
  ∧ (common = [] → isAffected (visitFile E [c] f).1 = None)
  ∧ (common ≠ [] →
     isAffected (visitFile E [c] f).1 = Some true
     ∧ reason (visitFile E [c] f).1
       = Some ("Modified exports from '" +:+ basename E (changedFile c) +:+ "': "
               +:+ String.concat ", " common)).
Proof.
  intros Hkind Hm Hne Hres Hacc Hjs Hign Hparse common.
  assert (Hone : determineAffectingChanges E f [c] [imp]
                 = if decide (common = []) then [] else [mkAffectingImport c common]).
  { rewrite determineAffectingChanges_flat. csimpl. rewrite !app_nil_r.
    by apply classifyImport_fine. }
  assert (Hfine : bool_decide (changeType c = KModify) && hasModifiedExports c = true).
  { unfold hasModifiedExports. rewrite Hm, bool_decide_eq_true_2 by done.
    by destruct m. }
  split_and!.
  - intros changes imports Hc Himp. rewrite elem_of_determineAffectingChanges. split.
    + intros Hcommon. exists c, imp. split_and!; [done | done |].
      rewrite (classifyImport_fine _ _ _ m) by done. fold common.
      rewrite decide_False by done. by apply list_elem_of_singleton.
    + intros (c' & imp' & _ & _ & Ha). apply classifyImport_elem in Ha.
      destruct Ha as (Hc' & _ & Hspec). simpl in Hc'. subst c'.
      rewrite Hfine in Hspec. by destruct Hspec as [_ Hspec].
  - done.
  - intros Hcommon. rewrite (visitFile_parsed _ _ _ [imp] exps) by done.
    cbv zeta. rewrite Hone, decide_True by done. simpl.
    unfold stamped. by destruct (findChange [c] f).
  - intros Hcommon. rewrite (visitFile_parsed _ _ _ [imp] exps) by done.
    cbv zeta. rewrite Hone, decide_False by done. simpl.
    split; [done |]. f_equal. unfold determineImpactReason, reasonLine. simpl.
    rewrite Hkind. unfold hasModifiedExports. rewrite Hm.
    destruct m as [| x m]; [done |]. simpl.
    destruct common; [done |]. by rewrite bool_decide_eq_true_2 by (simpl; lia).
Qed.

Lemma fine_grained_modify_witness :
  let c := mkFileChange "/p/x.ts" KModify (Some ["foo"]) in
  (isAffected (visitFile sample [c] "/p/y.ts").1 = None)
  ∧ isAffected (visitFile sample [c] "/p/z.ts").1 = Some true
  ∧ reason (visitFile sample [c] "/p/z.ts").1
    = Some "Modified exports from 'x.ts': foo".
Proof.
  intros c.
  pose proof (fine_grained_modify sample "/p/y.ts" c ["foo"]
                (mkImportInfo "./x" ["bar"]) ["y"]
                eq_refl eq_refl ltac:(discriminate) eq_refl eq_refl eq_refl eq_refl eq_refl)
    as (_ & _ & Hy & _).
  pose proof (fine_grained_modify sample "/p/z.ts" c ["foo"]
                (mkImportInfo "./x" ["foo"]) ["z"]
                eq_refl eq_refl ltac:(discriminate) eq_refl eq_refl eq_refl eq_refl eq_refl)
    as (_ & _ & _ & Hz).
  split; [exact (Hy eq_refl) |]. exact (Hz ltac:(discriminate)).
Defined.

(** C5: for an [add] or a [delete], and for a [modify] whose
    [modifiedExports] is absent or empty, every import that resolves to
    the changed file is affecting whatever it names, the recorded
    specifiers are all of the import's, and the importing file is marked
    affected. *)
Theorem coarse_change_always_affects E f c imp changes imports exps :
  coarse c →
  resolveImportPath E f (source imp) (rootDir E) = Some (changedFile c) →
  c ∈ changes → imp ∈ imports →
  access E f = true → isJavaScriptFile E f = true → shouldIgnoreFile E f = false →
  parseFile E f = Some (imports, exps) →
  mkAffectingImport c (specifiers imp) ∈ determineAffectingChanges E f changes imports
  ∧ determineAffectingChanges E f [c] [imp] = [mkAffectingImport c (specifiers imp)]
  ∧ isAffected (visitFile E changes f).1 = Some true.
Proof.
  intros Hcoarse Hres Hc Himp Hacc Hjs Hign Hparse.
  assert (Hin : mkAffectingImport c (specifiers imp)
                ∈ determineAffectingChanges E f changes imports).
  { apply elem_of_determineAffectingChanges. exists c, imp. split_and!; [done | done |].
    rewrite classifyImport_coarse by done. by apply list_elem_of_singleton. }
  split_and!; [done | |].
  - rewrite determineAffectingChanges_flat. csimpl. rewrite !app_nil_r.
    by apply classifyImport_coarse.
  - rewrite (visitFile_parsed _ _ _ imports exps) by done. cbv zeta.
    destruct (determineAffectingChanges E f changes imports) as [| a l];
      [by apply elem_of_nil in Hin |].
    by rewrite bool_decide_eq_true_2 by (simpl; lia).
Qed.

Lemma coarse_change_always_affects_witness :
  let c := mkFileChange "/p/logo.png" KAdd None in
  let imp := mkImportInfo "./logo.png" [] in
  mkAffectingImport c (specifiers imp)
    ∈ determineAffectingChanges sample "/p/entry.ts" sampleChanges
        [mkImportInfo "./y" ["y"]; mkImportInfo "lodash" ["map"];
         mkImportInfo "./gone" ["g"]; mkImportInfo "./z" ["z"];
         mkImportInfo "./logo.png" []; mkImportInfo "./broken" [];
         mkImportInfo "./types" []]
  ∧ determineAffectingChanges sample "/p/entry.ts" [c] [imp]
    = [mkAffectingImport c (specifiers imp)]
  ∧ isAffected (visitFile sample sampleChanges "/p/entry.ts").1 = Some true.
Proof.
  intros c imp.
  apply (coarse_change_always_affects sample "/p/entry.ts" c imp sampleChanges _ []).
  - left. reflexivity.
  - reflexivity.
  - apply (bool_decide_unpack _). vm_compute. exact I.
  - apply (bool_decide_unpack _). vm_compute. exact I.
  - reflexivity.
  - reflexivity.
  - reflexivity.
  - reflexivity.
Defined.

(** ** Reasons *)

Lemma reasonLine_not_default E a k :
  String.get 5 (reasonLine E a) ≠ String.get 5 ("File was " +:+ kindText k +:+ "d")
  ∧ ∀ rest, String.get 5 (reasonLine E a +:+ rest)
            ≠ String.get 5 ("File was " +:+ kindText k +:+ "d").
Proof.
  unfold reasonLine.
  destruct (changeType (change a)); [| case_match |]; by destruct k.
Qed.

Lemma impactReason_not_default E f entries imps k :
  entries ≠ [] →
  determineImpactReason E f entries imps ≠ "File was " +:+ kindText k +:+ "d".
Proof.
  intros Hne Heq. rewrite determineImpactReason_lines in Heq.
  destruct entries as [| a [| b entries]]; [done | |];
    destruct (reasonLine_not_default E a k) as [Hone Hmore].
  - apply Hone. by rewrite <- Heq.
  - apply (Hmore (newline +:+ String.concat newline (reasonLine E <$> b :: entries))).
    by rewrite <- Heq.
Qed.

(** C6, as the code has it: a code file that is in the Change Set and for
    which the classifier reports at least one affecting import has its
    default reason "File was {changeType}d" replaced by the
    import-impact reason, and keeps the [changeType] of its Change Set
    entry. *)
Theorem impact_reason_replaces_default E changes f c imps exps :
  access E f = true → isJavaScriptFile E f = true → shouldIgnoreFile E f = false →
  parseFile E f = Some (imps, exps) →
  findChange changes f = Some c →
  determineAffectingChanges E f changes imps ≠ [] →
  let node := (visitFile E changes f).1 in
  reason node
  = Some (determineImpactReason E f (determineAffectingChanges E f changes imps) imps)
  ∧ reason node ≠ Some ("File was " +:+ kindText (changeType c) +:+ "d")
  ∧ nodeChangeType node = Some (changeType c)
  ∧ isAffected node = Some true.
Proof.
  intros Hacc Hjs Hign Hparse Hc Hent node. unfold node.
  rewrite (visitFile_parsed _ _ _ imps exps) by done. cbv zeta.
  rewrite bool_decide_eq_true_2
    by (destruct (determineAffectingChanges E f changes imps); simpl; [done | lia]).
  cbn [fst]. unfold stamped. rewrite Hc. simpl. split_and!; try done.
  intros [= Heq]. by eapply impactReason_not_default.
Qed.

Lemma impact_reason_replaces_default_witness :
  let node := (visitFile sample sampleChanges "/p/z.ts").1 in
  reason node = Some "Modified exports from 'x.ts': foo"
  ∧ reason node ≠ Some "File was modifyd"
  ∧ nodeChangeType node = Some KModify
  ∧ isAffected node = Some true.
Proof.
  apply (impact_reason_replaces_default sample sampleChanges "/p/z.ts"
           (mkFileChange "/p/z.ts" KModify None) [mkImportInfo "./x" ["foo"]] ["z"]);
    try reflexivity.
  vm_compute. discriminate.
Defined.

(** The claim fails where the imported changed file is a [modify] whose
    modified exports the importer does not name: [y.ts] is in the Change
    Set and imports the changed [x.ts], the classifier reports nothing,
    and the default reason stays. *)
Lemma changed_importer_keeps_default_reason :
  findChange sampleChanges "/p/y.ts" = Some (mkFileChange "/p/y.ts" KModify None)
  ∧ parseFile sample "/p/y.ts" = Some ([mkImportInfo "./x" ["bar"]], ["y"])
  ∧ resolveImportPath sample "/p/y.ts" "./x" (rootDir sample) = Some "/p/x.ts"
  ∧ findChange sampleChanges "/p/x.ts"
    = Some (mkFileChange "/p/x.ts" KModify (Some ["foo"]))
  ∧ determineAffectingChanges sample "/p/y.ts" sampleChanges
      [mkImportInfo "./x" ["bar"]] = []
  ∧ reason (visitFile sample sampleChanges "/p/y.ts").1 = Some "File was modifyd"
  ∧ isAffected (visitFile sample sampleChanges "/p/y.ts").1 = None
  ∧ (reason <$> children sampleTree !! 0) = Some (Some "File was modifyd").
Proof. vm_compute. repeat split. Qed.

Lemma reasonLine_impactLine E f changes imps a :
  a ∈ determineAffectingChanges E f changes imps → reasonLine E a = impactLine E a.
Proof.
  intros (c & imp & _ & _ & Ha)%elem_of_determineAffectingChanges.
  apply classifyImport_elem in Ha as (<- & _ & Hspec).
  unfold reasonLine, impactLine.
  destruct (changeType (change a)); try done.
  rewrite bool_decide_eq_true_2 in Hspec by done.
  destruct (hasModifiedExports (change a)); [| done].
  destruct Hspec as [_ Hspec].
  rewrite bool_decide_eq_true_2; [done |].
  destruct (importedSpecifiers a); simpl; [done | lia].
Qed.

(** C7, as the code has it: the reason of a code node that the classifier
    marks affected is the newline-joined list of one line per affecting
    entry, entries taken change by change in Change Set order and, within
    a change, import by import in declaration order; the line is the
    [delete] or the [add] template, or for a [modify] the
    "Modified exports" template when the change carries a non-empty
    [modifiedExports] and the "content was modified" template
    otherwise. *)
Theorem impact_reason_lines E changes f imps exps :
  access E f = true → isJavaScriptFile E f = true → shouldIgnoreFile E f = false →
  parseFile E f = Some (imps, exps) →
  isAffected (visitFile E changes f).1 = Some true →
  reason (visitFile E changes f).1
  = Some (String.concat newline
            (impactLine E <$> determineAffectingChanges E f changes imps))
  ∧ determineAffectingChanges E f changes imps
    = changes ≫= (λ c, imps ≫= (λ imp, classifyImport E f c [] imp)).
Proof.
  intros Hacc Hjs Hign Hparse. rewrite (visitFile_parsed _ _ _ imps exps) by done.
  cbv zeta. intros Haff. split; [| apply determineAffectingChanges_flat].
  case_bool_decide as Hlen.
  - simpl. f_equal. rewrite determineImpactReason_lines. f_equal.
    apply list_eq_Forall2, Forall2_fmap, Forall2_same_length_lookup.
    split; [done |]. intros i a b Ha Hb. simplify_eq.
    eapply reasonLine_impactLine. by eapply list_elem_of_lookup_2.
  - simpl in Haff. unfold stamped in Haff.
    by destruct (findChange changes f).
Qed.

Lemma impact_reason_lines_witness :
  reason (visitFile sample sampleChanges "/p/entry.ts").1
  = Some (String.concat newline
            ["File 'y.ts' content was modified";
             "New file 'logo.png' was added that is imported";
             "Imported file 'broken.ts' was deleted";
             "File 'z.ts' content was modified"]).
Proof.
  pose proof (impact_reason_lines sample sampleChanges "/p/entry.ts"
                [mkImportInfo "./y" ["y"]; mkImportInfo "lodash" ["map"];
                 mkImportInfo "./gone" ["g"]; mkImportInfo "./z" ["z"];
                 mkImportInfo "./logo.png" []; mkImportInfo "./broken" [];
                 mkImportInfo "./types" []] []
                eq_refl eq_refl eq_refl eq_refl eq_refl) as [Hreason _].
  exact Hreason.
Defined.

(** The claim fails for a [modify] without export information whose
    importer names specifiers: the entry records them, and the line is
    "content was modified"; and for an affected asset, whose reason is
    none of the four templates. *)
Lemma modify_template_counterexample :
  let c := mkFileChange "/p/y.ts" KModify None in
  let imps := [mkImportInfo "./y" ["y"]] in
  determineAffectingChanges sample "/p/entry.ts" [c] imps = [mkAffectingImport c ["y"]]
  ∧ determineImpactReason sample "/p/entry.ts"
      (determineAffectingChanges sample "/p/entry.ts" [c] imps) imps
    = "File 'y.ts' content was modified"
  ∧ String.concat newline
      (specReasonLine sample <$> determineAffectingChanges sample "/p/entry.ts" [c] imps)
    = "Modified exports from 'y.ts': y"
  ∧ isAffected (visitFile sample sampleChanges "/p/logo.png").1 = Some true
  ∧ reason (visitFile sample sampleChanges "/p/logo.png").1 = Some "Asset file was addd".
Proof. vm_compute. repeat split. Qed.

(** ** Diamonds *)

Lemma elem_of_concat {A} (x : A) (ls : list (list A)) :
  x ∈ concat ls ↔ ∃ l, x ∈ l ∧ l ∈ ls.
Proof.
  induction ls as [| l ls IH]; simpl.
  - split; [by intros ?%elem_of_nil | by intros (l & _ & ?%elem_of_nil)].
  - rewrite elem_of_app, IH. split.
    + intros [Hx | (l' & Hx & Hl')]; [exists l | exists l']; split; try done.
      * apply list_elem_of_here.
      * by apply list_elem_of_further.
    + intros (l' & Hx & [-> | Hl']%elem_of_cons); [by left | right; by exists l'].
Qed.

Lemma subnodes_self n : n ∈ subnodes n.
Proof. rewrite subnodes_unfold. apply list_elem_of_here. Qed.

Lemma subnodes_leaf n : children n = [] → subnodes n = [n].
Proof. intros Hkids. by rewrite subnodes_unfold, Hkids. Qed.

Lemma subnodes_trans tree x y :
  x ∈ subnodes tree → y ∈ subnodes x → y ∈ subnodes tree.
Proof.
  induction tree as [tree IH] using FileNode_nested_ind.
  rewrite (subnodes_unfold tree), !elem_of_cons. intros [-> | Hx] Hy.
  - by rewrite <- elem_of_cons, <- subnodes_unfold.
  - right. apply elem_of_concat in Hx as (l & Hx & (k & -> & Hk)%list_elem_of_fmap).
    apply elem_of_concat. exists (subnodes k). split; [| by apply list_elem_of_fmap_2].
    rewrite Forall_forall in IH. by apply (IH k Hk).
Qed.

Lemma subnodes_child tree x c :
  x ∈ subnodes tree → c ∈ children x → c ∈ subnodes tree.
Proof.
  intros Hx Hc. apply (subnodes_trans tree x c Hx).
  rewrite subnodes_unfold. apply list_elem_of_further, elem_of_concat.
  exists (subnodes c). split; [apply subnodes_self | by apply list_elem_of_fmap_2].
Qed.

Lemma entry_inv n m fs :
  entry n = (m, fs) → children m = [] →
  n = withChildren (children n) m ∧ file <$> children n = fs.
Proof.
  destruct n as [f t im ex af ct re cs]. unfold entry, withChildren. simpl.
  intros [= <- <-] _. done.
Qed.

(** Two nodes of the same file at different places of a returned tree
    are not both populated. *)
Lemma populated_once {A B} (f : A → B) (P : A → Prop) `{∀ x, Decision (P x)}
    (l : list A) i j x y :
  NoDup (f <$> filter P l) →
  l !! i = Some x → l !! j = Some y → P x → P y → f x = f y → i = j.
Proof.
  revert i j. induction l as [| z l IH]; intros i j Hnd Hi Hj Hx Hy Hf; [done |].
  rewrite filter_cons in Hnd.
  assert (Hnd' : NoDup (f <$> filter P l)).
  { case_decide; [| done]. rewrite fmap_cons in Hnd. by apply NoDup_cons in Hnd as []. }
  assert (Hin : ∀ k w, l !! k = Some w → P w → f w ∈ f <$> filter P l).
  { intros k w Hk Hw. apply list_elem_of_fmap_2, list_elem_of_filter. split; [done |].
    by eapply list_elem_of_lookup_2. }
  destruct i as [| i], j as [| j]; simpl in *; simplify_eq.
  - done.
  - rewrite decide_True, fmap_cons in Hnd by done. apply NoDup_cons in Hnd as [Hnot _].
    destruct Hnot. rewrite Hf. by eapply Hin.
  - rewrite decide_True, fmap_cons in Hnd by done. apply NoDup_cons in Hnd as [Hnot _].
    destruct Hnot. rewrite <- Hf. by eapply Hin.
  - f_equal. by eapply IH.
Qed.

Lemma root_visited E changes tree :
  TreeOk E changes tree → entry tree = visitFile E changes (file tree).
Proof.
  intros Hok. destruct (node_cases _ _ _ _ Hok (subnodes_self tree)) as [Hstub | Hfull];
    [| done].
  destruct (tree_first _ _ _ Hok tree (subnodes_self tree)) as (n' & Hn' & Hentry).
  rewrite subnodes_leaf in Hn' by (by rewrite Hstub).
  by apply list_elem_of_singleton in Hn' as ->.
Qed.

Section Diamond.
Variable E : Collaborators.
Variable options : AnalysisOptions.
Variables A B C : string.

#[local] Abbreviation visit := (visitFile E (changes options)).

Hypothesis distinct : NoDup [entryFile options; A; B; C].
Hypothesis entry_accessible : access E (entryFile options) = true.
Hypothesis entry_imports : (visit (entryFile options)).2 = [A; B].
Hypothesis A_imports : (visit A).2 = [C].
Hypothesis B_imports : (visit B).2 = [C].
Hypothesis C_imports : (visit C).2 = [].

Lemma diamond_closed :
  ∀ f p, f ∈ ({[entryFile options; A; B; C]} : gset string) →
         p ∈ (visit f).2 → p ∈ ({[entryFile options; A; B; C]} : gset string).
Proof.
  intros f p Hf Hp.
  assert (f = entryFile options ∨ f = A ∨ f = B ∨ f = C) as [-> | [-> | [-> | ->]]]
    by set_solver.
  - rewrite entry_imports in Hp. set_solver.
  - rewrite A_imports in Hp. set_solver.
  - rewrite B_imports in Hp. set_solver.
  - rewrite C_imports in Hp. set_solver.
Qed.

(** A parent of [C] in a returned tree: the stub, or the visited node
    with its one child for [C], itself the stub or the visited node. *)
Lemma diamond_side tree x X :
  TreeOk E (changes options) tree → x ∈ subnodes tree → file x = X →
  (visit X).2 = [C] →
  (x = stubNode E X ∧ subnodes x = [x])
  ∨ ∃ c, x = withChildren [c] (visit X).1 ∧ subnodes x = [x; c] ∧ file c = C
         ∧ (c = stubNode E C ∨ c = (visit C).1).
Proof.
  intros Hok Hx <- HX.
  destruct (node_cases _ _ _ _ Hok Hx) as [Hstub | Hfull].
  - left. split; [done |]. apply subnodes_leaf. by rewrite Hstub.
  - right. rewrite (surjective_pairing (visit (file x))), HX in Hfull.
    apply entry_inv in Hfull as [Hnode Hkids]; [| apply visitFile_children].
    destruct (children x) as [| c [| c' kids]] eqn:Hcs; try done.
    injection Hkids as Hc. exists c. split; [done |].
    assert (Hcin : c ∈ subnodes tree).
    { eapply subnodes_child; [done |]. rewrite Hcs. apply list_elem_of_here. }
    assert (children c = [] ∧ (c = stubNode E C ∨ c = (visit C).1)) as [Hleaf Hc'].
    { destruct (node_cases _ _ _ _ Hok Hcin) as [Hstub | Hfull].
      - rewrite Hc in Hstub. split; [by rewrite Hstub | by left].
      - rewrite Hc, (surjective_pairing (visit C)), C_imports in Hfull.
        apply entry_leaf in Hfull. split; [| by right].
        rewrite Hfull. apply visitFile_children. }
    split_and!; [| done | done].
    rewrite (subnodes_unfold x), Hcs. csimpl.
    by rewrite (subnodes_leaf c), app_nil_r.
Qed.

(** C1, as the code has it: in a diamond the entry has the children
    [A] and [B], each of them one child for [C]; one of the two is the
    node a visit of [C] produces and the other is the stub, whichever
    parent the schedule lets reach [C] first. *)
Theorem diamond_one_visit_one_stub sched :
  (∃ fuel tree, analyzeProject E fuel sched options = Some (inr tree))
  ∧ ∀ fuel tree, analyzeProject E fuel sched options = Some (inr tree) →
    ∃ ca cb,
      tree = withChildren [withChildren [ca] (visit A).1; withChildren [cb] (visit B).1]
               (visit (entryFile options)).1
      ∧ ((ca = (visit C).1 ∧ cb = stubNode E C)
         ∨ (ca = stubNode E C ∧ cb = (visit C).1)).
Proof.
  split.
  { apply (analyzeProject_returns E {[entryFile options; A; B; C]});
      [apply diamond_closed | set_solver | done]. }
  intros fuel tree (_ & Hroot & Hok)%analyzeProject_tree.
  pose proof (root_visited _ _ _ Hok) as Hentry.
  rewrite Hroot, (surjective_pairing (visit (entryFile options))), entry_imports
    in Hentry.
  apply entry_inv in Hentry as [Htree Hkids]; [| apply visitFile_children].
  destruct (children tree) as [| a [| b [| b' kids]]] eqn:Hcs; try done.
  injection Hkids as Ha Hb.
  assert (entryFile options ≠ A ∧ entryFile options ≠ B ∧ entryFile options ≠ C
          ∧ A ≠ B ∧ A ≠ C ∧ B ≠ C) as (HeA & HeB & HeC & HAB & HAC & HBC).
  { pose proof distinct as Hd.
    apply NoDup_cons in Hd as [H1 Hd]. apply NoDup_cons in Hd as [H2 Hd].
    apply NoDup_cons in Hd as [H3 Hd]. set_solver. }
  assert (Ha_in : a ∈ subnodes tree).
  { eapply subnodes_child; [apply subnodes_self |]. rewrite Hcs. set_solver. }
  assert (Hb_in : b ∈ subnodes tree).
  { eapply subnodes_child; [apply subnodes_self |]. rewrite Hcs. set_solver. }
  assert (HS : subnodes tree = tree :: subnodes a ++ subnodes b).
  { rewrite (subnodes_unfold tree), Hcs. csimpl. by rewrite app_nil_r. }
  (* a node whose entry is the visit of [X] has the file [X] and, for a
     parent of [C], a child *)
  assert (Hvisited : ∀ n X, entry n = visit X → file n = X ∧ file <$> children n = (visit X).2).
  { intros n X Hn. split.
    - change (file n) with (file (entry n).1). rewrite Hn. apply visitFile_file.
    - change (file <$> children n) with (entry n).2. by rewrite Hn. }
  destruct (diamond_side tree a A Hok Ha_in Ha A_imports)
    as [[Hsa HSa] | (ca & Hax & HSa & Hca & Hca')];
    destruct (diamond_side tree b B Hok Hb_in Hb B_imports)
      as [[Hsb HSb] | (cb & Hbx & HSb & Hcb & Hcb')].
  1, 2: exfalso;
    destruct (tree_first _ _ _ Hok a Ha_in) as (n' & Hn' & Hentry');
    rewrite Ha in Hentry'; apply Hvisited in Hentry' as [Hfile Hkids];
    rewrite A_imports in Hkids;
    rewrite HS, HSa, HSb in Hn'; simpl in Hn';
    rewrite !elem_of_cons, elem_of_nil in Hn'; destruct_or!; subst n';
    try congruence; try done; by rewrite Hsa in Hkids.
  1: exfalso;
    destruct (tree_first _ _ _ Hok b Hb_in) as (n' & Hn' & Hentry');
    rewrite Hb in Hentry'; apply Hvisited in Hentry' as [Hfile Hkids];
    rewrite B_imports in Hkids;
    rewrite HS, HSa, HSb in Hn'; simpl in Hn';
    rewrite !elem_of_cons, elem_of_nil in Hn'; destruct_or!; subst n';
    try congruence; try done; by rewrite Hsb in Hkids.
  exists ca, cb. split; [congruence |].
  rewrite HSa, HSb in HS. simpl in HS.
  destruct Hca' as [Hca' | Hca'], Hcb' as [Hcb' | Hcb']; [| by right | by left |].
  - assert (ca ∈ subnodes tree) as Hca_in by (rewrite HS; set_solver).
    destruct (tree_first _ _ _ Hok ca Hca_in) as (n' & Hn' & Hentry').
    rewrite Hca in Hentry'. pose proof (Hvisited _ _ Hentry') as [Hfile _].
    rewrite (surjective_pairing (visit C)), C_imports in Hentry'.
    apply entry_leaf in Hentry'.
    rewrite HS, !elem_of_cons, elem_of_nil in Hn'. destruct_or!; subst n';
      try congruence; try done.
    + left. by rewrite <- Hentry'.
    + right. by rewrite <- Hentry'.
  - destruct (isStub E (visit C).1) eqn:Hstub.
    + apply isStub_eq in Hstub. rewrite visitFile_file in Hstub.
      left. split; [done |]. by rewrite Hcb'.
    + exfalso.
      assert (2 = 4) as Habsurd; [| done].
      apply (populated_once file (λ n, isStub E n = false) (subnodes tree) 2 4 ca cb);
        [apply (tree_once _ _ _ Hok) | by rewrite HS | by rewrite HS
        | by rewrite Hca' | by rewrite Hcb' | congruence].
Qed.

End Diamond.

Lemma diamond_one_visit_one_stub_witness :
  (∃ fuel tree,
     analyzeProject diamond fuel [0; 1; 1] diamondOptions = Some (inr tree))
  ∧ ∀ fuel tree,
      analyzeProject diamond fuel [0; 1; 1] diamondOptions = Some (inr tree) →
      ∃ ca cb, tree = diamondTree ca cb
               ∧ ((ca = diamondVisited ∧ cb = diamondStub)
                  ∨ (ca = diamondStub ∧ cb = diamondVisited)).
Proof.
  apply (diamond_one_visit_one_stub diamond diamondOptions
           "/p/a.ts" "/p/b.ts" "/p/c.ts").
  - apply (bool_decide_unpack _). vm_compute. exact I.
  - reflexivity.
  - reflexivity.
  - reflexivity.
  - reflexivity.
  - reflexivity.
Defined.

(** The claim fails on the diamond: when [a.ts] reaches [c.ts] first, the
    child of [b.ts] for [c.ts] is the stub, without imports and exports;
    when [b.ts] reaches it first, the child of [a.ts] is. *)
Lemma diamond_second_parent_gets_stub :
  analyzeProject diamond 5 [] diamondOptions
  = Some (inr (diamondTree diamondVisited diamondStub))
  ∧ analyzeProject diamond 5 [0; 1; 1] diamondOptions
    = Some (inr (diamondTree diamondStub diamondVisited))
  ∧ diamondStub ≠ diamondVisited
  ∧ isStub diamond diamondStub = true.
Proof.
  split; [vm_compute; reflexivity |]. split; [vm_compute; reflexivity |].
  split; [discriminate | reflexivity].
Qed.

(** ** The changes of the last commit *)

Section GitFacts.
Variable E : Collaborators.
Variable G : Git.

Lemma changeOfLine_acc acc line :
  changeOfLine E G acc line = acc ++ changeOfLine E G [] line.
Proof.
  unfold changeOfLine. repeat case_match; simpl; by rewrite ?app_nil_r.
Qed.

Lemma fold_changeOfLine lines acc :
  fold_left (changeOfLine E G) lines acc = acc ++ (lines ≫= changeOfLine E G []).
Proof.
  revert acc. induction lines as [| line lines IH]; intros acc; csimpl.
  - by rewrite app_nil_r.
  - rewrite IH, changeOfLine_acc. by rewrite (assoc (++)).
Qed.

(** The change a line stands for. *)
Lemma changeOfLine_fields line status filePath more :
  splitOn (Ascii.ascii_of_nat 9) line = status :: filePath :: more →
  changeOfLine E G [] line
  = if matchesSource filePath then
      match statusKind status with
      | Some KModify =>
          [mkFileChange (pathResolve G filePath) KModify
             (orUndefined (exportDiff E G filePath (pathResolve G filePath)))]
      | Some k => [mkFileChange (pathResolve G filePath) k None]
      | None => []
      end
    else [].
Proof.
  intros Hparts. unfold changeOfLine. rewrite Hparts. simpl.
  destruct (matchesSource filePath) eqn:Hsrc; simpl.
  - rewrite bool_decide_eq_false_2 by (by intros ->). simpl.
    by destruct (statusKind status) as [[| |] |].
  - by rewrite orb_true_r.
Qed.

Lemma changeOfLine_short line status :
  splitOn (Ascii.ascii_of_nat 9) line = [status] → changeOfLine E G [] line = [].
Proof. intros Hparts. unfold changeOfLine. by rewrite Hparts. Qed.

Lemma splitOn_nonempty sep s : splitOn sep s ≠ [].
Proof. destruct s as [| c s]; simpl; [done |]. repeat case_match; done. Qed.

Lemma changeOfLine_elem line c :
  c ∈ changeOfLine E G [] line
  ↔ ∃ status filePath more k,
      splitOn (Ascii.ascii_of_nat 9) line = status :: filePath :: more
      ∧ matchesSource filePath = true ∧ statusKind status = Some k
      ∧ c = mkFileChange (pathResolve G filePath) k
              (match k with
               | KModify => orUndefined (exportDiff E G filePath (pathResolve G filePath))
               | _ => None
               end).
Proof.
  destruct (splitOn (Ascii.ascii_of_nat 9) line) as [| status [| filePath more]] eqn:Hparts.
  - by apply splitOn_nonempty in Hparts.
  - rewrite (changeOfLine_short _ status) by done. split; [by intros ?%elem_of_nil |].
    by intros (? & ? & ? & ? & ? & _).
  - rewrite (changeOfLine_fields _ status filePath more) by done. split.
    + destruct (matchesSource filePath) eqn:Hsrc; [| by intros ?%elem_of_nil].
      destruct (statusKind status) as [k |] eqn:Hk; [| by intros ?%elem_of_nil].
      intros Hc. exists status, filePath, more, k. split_and!; try done.
      destruct k; by apply list_elem_of_singleton in Hc.
    + intros (status' & filePath' & more' & k & [= <- <- <-] & -> & -> & ->).
      destruct k; by apply list_elem_of_singleton.
Qed.

Lemma changeOfLine_length line : length (changeOfLine E G [] line) ≤ 1.
Proof.
  unfold changeOfLine. repeat case_match; simpl; lia.
Qed.

Lemma elem_of_diffLines diff line :
  line ∈ diffLines diff ↔ line ∈ splitOn (Ascii.ascii_of_nat 10) diff ∧ line ≠ "".
Proof.
  unfold diffLines. rewrite list_elem_of_In, filter_In, <- list_elem_of_In.
  rewrite negb_true_iff, bool_decide_eq_false. done.
Qed.

Lemma bind_length_le {A B} (f : A → list B) (l : list A) :
  (∀ x, length (f x) ≤ 1) → length (l ≫= f) ≤ length l.
Proof.
  intros Hf. induction l as [| x l IH]; csimpl; [done |].
  rewrite length_app. specialize (Hf x). lia.
Qed.

End GitFacts.

Example lastCommit_changes :
  getLastCommitChanges sampleNow lastCommit
  = Some [mkFileChange "/p/x.ts" KModify (Some ["baz"; "bar"]);
          mkFileChange "/p/y.ts" KModify None;
          mkFileChange "/p/z.ts" KAdd None;
          mkFileChange "/p/broken.ts" KDelete None].
Proof. vm_compute. reflexivity. Qed.

Lemma getLastCommitChanges_elem E G diff cs c :
  gitDiff G = Some diff →
  getLastCommitChanges E G = Some cs →
  c ∈ cs
  ↔ ∃ line status filePath more k,
      line ∈ splitOn (Ascii.ascii_of_nat 10) diff
      ∧ splitOn (Ascii.ascii_of_nat 9) line = status :: filePath :: more
      ∧ matchesSource filePath = true ∧ statusKind status = Some k
      ∧ c = mkFileChange (pathResolve G filePath) k
              (match k with
               | KModify => orUndefined (exportDiff E G filePath (pathResolve G filePath))
               | _ => None
               end).
Proof.
  unfold getLastCommitChanges. intros -> [= <-].
  rewrite fold_changeOfLine. simpl. rewrite list_elem_of_bind. split.
  - intros (line & Hc & [Hline _]%elem_of_diffLines).
    apply changeOfLine_elem in Hc as (status & filePath & more & k & Hc).
    by exists line, status, filePath, more, k.
  - intros (line & status & filePath & more & k & Hline & Hparts & Hc).
    exists line. split.
    + apply changeOfLine_elem. by exists status, filePath, more, k.
    + apply elem_of_diffLines. split; [done |]. by intros ->.
Qed.

(** X1: the changes [getLastCommitChanges] returns are those of the
    lines of the diff whose second tab-separated field ends in [.js],
    [.jsx], [.ts] or [.tsx] and whose status starts with [A], [D] or
    [M]: each has the resolved path of that field and the kind of that
    letter, every such line gives one, and there are no more changes
    than non-empty lines. *)
Theorem last_commit_changes_from_lines E G diff cs :
  gitDiff G = Some diff →
  getLastCommitChanges E G = Some cs →
  (∀ k abs,
     (∃ c, c ∈ cs ∧ changeType c = k ∧ changedFile c = abs)
     ↔ ∃ line status filePath more,
         line ∈ splitOn (Ascii.ascii_of_nat 10) diff
         ∧ splitOn (Ascii.ascii_of_nat 9) line = status :: filePath :: more
         ∧ matchesSource filePath = true ∧ statusKind status = Some k
         ∧ abs = pathResolve G filePath)
  ∧ length cs ≤ length (diffLines diff).
Proof.
  intros Hdiff Hcs. split.
  - intros k abs. split.
    + intros (c & Hc & <- & <-).
      apply (getLastCommitChanges_elem E G diff cs c Hdiff Hcs) in Hc
        as (line & status & filePath & more & k & Hline & Hparts & Hsrc & Hk & ->).
      exists line, status, filePath, more. by destruct k.
    + intros (line & status & filePath & more & Hline & Hparts & Hsrc & Hk & ->).
      eexists. split.
      * apply (getLastCommitChanges_elem E G diff cs _ Hdiff Hcs).
        by exists line, status, filePath, more, k.
      * done.
  - revert Hcs. unfold getLastCommitChanges. rewrite Hdiff. intros [= <-].
    rewrite fold_changeOfLine. apply bind_length_le, changeOfLine_length.
Qed.

Lemma last_commit_changes_from_lines_witness :
  (∀ k abs,
     (∃ c, c ∈ [mkFileChange "/p/x.ts" KModify (Some ["baz"; "bar"]);
                mkFileChange "/p/y.ts" KModify None;
                mkFileChange "/p/z.ts" KAdd None;
                mkFileChange "/p/broken.ts" KDelete None]
           ∧ changeType c = k ∧ changedFile c = abs)
     ↔ ∃ line status filePath more,
         line ∈ splitOn (Ascii.ascii_of_nat 10)
                  (String.concat newline
                     ["M" +:+ tab +:+ "x.ts"; "M" +:+ tab +:+ "y.ts";
                      "A" +:+ tab +:+ "logo.png"; "A" +:+ tab +:+ "z.ts";
                      "R100" +:+ tab +:+ "old.ts" +:+ tab +:+ "new.ts";
                      "D" +:+ tab +:+ "broken.ts"; ""])
         ∧ splitOn (Ascii.ascii_of_nat 9) line = status :: filePath :: more
         ∧ matchesSource filePath = true ∧ statusKind status = Some k
         ∧ abs = pathResolve lastCommit filePath)
  ∧ 4 ≤ 6.
Proof.
  exact (last_commit_changes_from_lines sampleNow lastCommit _ _ eq_refl eq_refl).
Defined.

Section GitExports.
Variable E : Collaborators.
Variable G : Git.

Lemma elem_of_setAdd_fold l acc x :
  x ∈ fold_left setAdd l acc ↔ x ∈ acc ∨ x ∈ l.
Proof.
  revert acc. induction l as [| y l IH]; intros acc; simpl.
  - rewrite elem_of_nil. naive_solver.
  - rewrite IH, elem_of_cons. unfold setAdd. case_bool_decide as Hy.
    + naive_solver.
    + rewrite elem_of_app, list_elem_of_singleton. naive_solver.
Qed.

Lemma NoDup_setAdd_fold l acc : NoDup acc → NoDup (fold_left setAdd l acc).
Proof.
  revert acc. induction l as [| y l IH]; intros acc Hacc; simpl; [done |].
  apply IH. unfold setAdd. case_bool_decide as Hy; [done |].
  apply NoDup_app. split_and!; [done | | apply NoDup_singleton].
  intros x Hx ->%list_elem_of_singleton. done.
Qed.

Lemma elem_of_List_filter {A} (p : A → bool) (l : list A) x :
  x ∈ List.filter p l ↔ x ∈ l ∧ p x = true.
Proof. by rewrite !list_elem_of_In, filter_In. Qed.

Lemma NoDup_List_filter {A} (p : A → bool) (l : list A) :
  NoDup l → NoDup (List.filter p l).
Proof.
  induction 1 as [| x l Hx Hl IH]; simpl; [constructor |].
  destruct (p x); [| done]. constructor; [| done].
  rewrite elem_of_List_filter. naive_solver.
Qed.

Lemma sublist_List_filter {A} (p : A → bool) (l : list A) :
  List.filter p l `sublist_of` l.
Proof.
  induction l as [| x l IH]; simpl; [constructor |].
  destruct (p x); by constructor.
Qed.

Lemma setAdd_fold_sublist l acc :
  ∃ r, fold_left setAdd l acc = acc ++ r ∧ r `sublist_of` l.
Proof.
  revert acc. induction l as [| x l IH]; intros acc; simpl.
  - exists []. by rewrite app_nil_r.
  - unfold setAdd at 2. case_bool_decide.
    + destruct (IH acc) as (r & -> & Hr). exists r. split; [done |]. by constructor.
    + destruct (IH (acc ++ [x])) as (r & -> & Hr). exists (x :: r).
      split; [by rewrite <- app_assoc | by constructor].
Qed.

Lemma exportDiff_parsed filePath abs content i1 prev i2 cur :
  gitShow G ("HEAD^:" +:+ filePath) = Some content → content ≠ "" →
  parseFileWith G abs content = Some (i1, prev) →
  parseFile E abs = Some (i2, cur) →
  exportDiff E G filePath abs
  = List.filter (λ exp, negb (bool_decide (exp ∈ fold_left setAdd prev []))) cur
    ++ List.filter (λ exp, negb (bool_decide (exp ∈ cur))) (fold_left setAdd prev []).
Proof.
  intros Hshow Hne Hprev Hcur. unfold exportDiff.
  by rewrite Hshow, bool_decide_eq_false_2, Hprev, Hcur.
Qed.

Lemma orUndefined_spec m :
  orUndefined m ≠ Some []
  ∧ (orUndefined m = None ↔ m = [])
  ∧ ∀ m', orUndefined m = Some m' → m' = m ∧ m ≠ [].
Proof. destruct m; simpl; naive_solver. Qed.

(** The fields of a change the script produces. *)
Lemma script_change_fields cs c :
  getLastCommitChanges E G = Some cs → c ∈ cs →
  modifiedExports c ≠ Some []
  ∧ (changeType c ≠ KModify → modifiedExports c = None).
Proof.
  unfold getLastCommitChanges. destruct (gitDiff G) as [diff |]; [| done].
  intros [= <-]. rewrite fold_changeOfLine. simpl.
  intros (line & Hc & _)%list_elem_of_bind.
  apply changeOfLine_elem in Hc as (status & filePath & more & k & _ & _ & _ & ->).
  destruct k; simpl; try done. split; [apply orUndefined_spec | done].
Qed.

End GitExports.

(** X2: a change from [getLastCommitChanges] never carries an empty
    [modifiedExports]: the field is absent or non-empty, absent for
    every [add] and [delete], and the change is coarse for the
    classifier exactly when the field is absent. *)
Theorem last_commit_changes_exports_field E G cs c :
  getLastCommitChanges E G = Some cs → c ∈ cs →
  modifiedExports c ≠ Some []
  ∧ (changeType c ≠ KModify → modifiedExports c = None)
  ∧ (coarse c ↔ modifiedExports c = None)
  ∧ (hasModifiedExports c = true ↔ modifiedExports c ≠ None).
Proof.
  intros Hcs Hc. destruct (script_change_fields E G cs c Hcs Hc) as [Hne Hkind].
  split_and!; [done | done | |].
  - unfold coarse. destruct (changeType c) eqn:Hk.
    + rewrite Hkind by done. naive_solver.
    + destruct (modifiedExports c) as [[| x m] |]; naive_solver.
    + rewrite Hkind by done. naive_solver.
  - unfold hasModifiedExports. destruct (modifiedExports c) as [[| x m] |]; naive_solver.
Qed.

Lemma last_commit_changes_exports_field_witness :
  let c := mkFileChange "/p/y.ts" KModify None in
  modifiedExports c ≠ Some []
  ∧ (changeType c ≠ KModify → modifiedExports c = None)
  ∧ (coarse c ↔ modifiedExports c = None)
  ∧ (hasModifiedExports c = true ↔ modifiedExports c ≠ None).
Proof.
  apply (last_commit_changes_exports_field sampleNow lastCommit
           [mkFileChange "/p/x.ts" KModify (Some ["baz"; "bar"]);
            mkFileChange "/p/y.ts" KModify None;
            mkFileChange "/p/z.ts" KAdd None;
            mkFileChange "/p/broken.ts" KDelete None]).
  - vm_compute. reflexivity.
  - apply (bool_decide_unpack _). vm_compute. exact I.
Defined.

(** X3: when the previous content is not empty and both versions parse,
    the modified exports of an ['M'] line are the symmetric difference
    of the two export sets, in this order: first the names exported now
    and not before, in the order of the current exports, then the names
    exported before and not now, in the order of the previous exports.
    The list has no repetition, and it is empty exactly when the two
    sets have the same members. *)
Theorem export_diff_symmetric E G filePath abs content i1 prev i2 cur :
  gitShow G ("HEAD^:" +:+ filePath) = Some content → content ≠ "" →
  parseFileWith G abs content = Some (i1, prev) →
  parseFile E abs = Some (i2, cur) →
  (∃ added removed,
     exportDiff E G filePath abs = added ++ removed
     ∧ added `sublist_of` cur ∧ removed `sublist_of` prev
     ∧ (∀ x, x ∈ added ↔ x ∈ cur ∧ x ∉ prev)
     ∧ (∀ x, x ∈ removed ↔ x ∈ prev ∧ x ∉ cur)
     ∧ NoDup removed)
  ∧ (∀ x, x ∈ exportDiff E G filePath abs
          ↔ (x ∈ cur ∧ x ∉ prev) ∨ (x ∈ prev ∧ x ∉ cur))
  ∧ (NoDup cur → NoDup (exportDiff E G filePath abs))
  ∧ ((∀ x, x ∈ cur ↔ x ∈ prev) ↔ exportDiff E G filePath abs = []).
Proof.
  intros Hshow Hne Hprev Hcur.
  rewrite (exportDiff_parsed E G filePath abs content i1 prev i2 cur) by done.
  assert (Hmem : ∀ x,
    x ∈ List.filter (λ exp, negb (bool_decide (exp ∈ fold_left setAdd prev []))) cur
        ++ List.filter (λ exp, negb (bool_decide (exp ∈ cur))) (fold_left setAdd prev [])
    ↔ (x ∈ cur ∧ x ∉ prev) ∨ (x ∈ prev ∧ x ∉ cur)).
  { intros x. rewrite elem_of_app, !elem_of_List_filter, !negb_true_iff,
      !bool_decide_eq_false, !elem_of_setAdd_fold, elem_of_nil. naive_solver. }
  split_and!; [| done | |].
  - eexists _, _. split_and!; [reflexivity | apply sublist_List_filter | | | |].
    + etrans; [apply sublist_List_filter |].
      destruct (setAdd_fold_sublist prev []) as (r & -> & Hr). done.
    + intros x. rewrite elem_of_List_filter, negb_true_iff, bool_decide_eq_false,
        elem_of_setAdd_fold, elem_of_nil. naive_solver.
    + intros x. rewrite elem_of_List_filter, negb_true_iff, bool_decide_eq_false,
        elem_of_setAdd_fold, elem_of_nil. naive_solver.
    + apply NoDup_List_filter, NoDup_setAdd_fold. constructor.
  - intros Hnd. apply NoDup_app. split_and!.
    + by apply NoDup_List_filter.
    + intros x. rewrite !elem_of_List_filter, !negb_true_iff, !bool_decide_eq_false.
      naive_solver.
    + apply NoDup_List_filter, NoDup_setAdd_fold. constructor.
  - split.
    + intros Hsame.
      destruct (List.filter _ cur ++ List.filter _ (fold_left setAdd prev []))
        as [| x l] eqn:Hdiff; [done |].
      assert (x ∈ x :: l) as Hx by apply list_elem_of_here.
      apply Hmem in Hx. naive_solver.
    + intros Hnil x. specialize (Hmem x). rewrite Hnil, elem_of_nil in Hmem.
      destruct (decide (x ∈ cur)), (decide (x ∈ prev)); naive_solver.
Qed.

Lemma export_diff_symmetric_witness :
  exportDiff sampleNow lastCommit "x.ts" "/p/x.ts" = ["baz"; "bar"]
  ∧ (∃ added removed,
     exportDiff sampleNow lastCommit "x.ts" "/p/x.ts" = added ++ removed
     ∧ added `sublist_of` ["foo"; "baz"] ∧ removed `sublist_of` ["foo"; "bar"]
     ∧ (∀ x, x ∈ added ↔ x ∈ ["foo"; "baz"] ∧ x ∉ ["foo"; "bar"])
     ∧ (∀ x, x ∈ removed ↔ x ∈ ["foo"; "bar"] ∧ x ∉ ["foo"; "baz"])
     ∧ NoDup removed)
  ∧ (∀ x, x ∈ exportDiff sampleNow lastCommit "x.ts" "/p/x.ts"
          ↔ (x ∈ ["foo"; "baz"] ∧ x ∉ ["foo"; "bar"])
            ∨ (x ∈ ["foo"; "bar"] ∧ x ∉ ["foo"; "baz"]))
  ∧ (NoDup ["foo"; "baz"] → NoDup (exportDiff sampleNow lastCommit "x.ts" "/p/x.ts"))
  ∧ ((∀ x, x ∈ ["foo"; "baz"] ↔ x ∈ ["foo"; "bar"])
     ↔ exportDiff sampleNow lastCommit "x.ts" "/p/x.ts" = []).
Proof.
  split; [reflexivity |].
  apply (export_diff_symmetric sampleNow lastCommit "x.ts" "/p/x.ts"
           "export foo, bar" [] ["foo"; "bar"] [] ["foo"; "baz"]).
  - reflexivity.
  - discriminate.
  - reflexivity.
  - reflexivity.
Defined.

(** X4: a modified source file is reported even when its exports cannot
    be compared: if [git show] rejects, or the previous or the current
    version does not parse, the line still adds a [modify] change, and
    this change has no [modifiedExports]. *)
Theorem unanalysable_modify_still_reported E G line status filePath more changes :
  splitOn (Ascii.ascii_of_nat 9) line = status :: filePath :: more →
  matchesSource filePath = true → statusKind status = Some KModify →
  gitShow G ("HEAD^:" +:+ filePath) = None
  ∨ (∃ content, gitShow G ("HEAD^:" +:+ filePath) = Some content ∧ content ≠ ""
                ∧ parseFileWith G (pathResolve G filePath) content = None)
  ∨ parseFile E (pathResolve G filePath) = None →
  changeOfLine E G changes line
  = changes ++ [mkFileChange (pathResolve G filePath) KModify None].
Proof.
  intros Hparts Hsrc Hk Hfail.
  rewrite changeOfLine_acc, (changeOfLine_fields E G line status filePath more) by done.
  rewrite Hsrc, Hk. do 3 f_equal.
  assert (exportDiff E G filePath (pathResolve G filePath) = []) as ->; [| done].
  unfold exportDiff. destruct Hfail as [-> | [(content & -> & Hne & ->) | ->]].
  - done.
  - by rewrite bool_decide_eq_false_2.
  - by repeat case_match.
Qed.

Lemma unanalysable_modify_still_reported_witness :
  changeOfLine sampleNow lastCommit [mkFileChange "/p/a.ts" KAdd None]
    ("M" +:+ tab +:+ "w.ts")
  = [mkFileChange "/p/a.ts" KAdd None; mkFileChange "/p/w.ts" KModify None].
Proof.
  apply (unanalysable_modify_still_reported sampleNow lastCommit
           ("M" +:+ tab +:+ "w.ts") "M" "w.ts" []).
  - reflexivity.
  - reflexivity.
  - reflexivity.
  - left. reflexivity.
Defined.

Lemma filter_not_in_nil (l : list string) :
  List.filter (λ exp, negb (bool_decide (exp ∈ ([] : list string)))) l = l.
Proof.
  induction l as [| x l IH]; [done |]. cbn [List.filter].
  rewrite bool_decide_eq_false_2 by apply not_elem_of_nil. cbn [negb].
  by rewrite IH.
Qed.

(** X5: when the previous version of a modified file is empty, the
    previous exports are taken to be none and every current export
    counts as modified. *)
Theorem empty_previous_version_modifies_all E G filePath abs i cur :
  gitShow G ("HEAD^:" +:+ filePath) = Some "" →
  parseFile E abs = Some (i, cur) →
  exportDiff E G filePath abs = cur.
Proof.
  intros Hshow Hcur. unfold exportDiff. rewrite Hshow, Hcur.
  rewrite bool_decide_eq_true_2 by done. cbn [negb List.filter].
  by rewrite app_nil_r, filter_not_in_nil.
Qed.

Lemma empty_previous_version_modifies_all_witness :
  exportDiff sampleNow lastCommit "z.ts" "/p/z.ts" = ["z"].
Proof.
  apply (empty_previous_version_modifies_all sampleNow lastCommit "z.ts" "/p/z.ts"
           [mkImportInfo "./x" ["baz"]] ["z"]).
  - reflexivity.
  - reflexivity.
Defined.

(** X6: how the classifier treats a change the script produced, for an
    import that resolves to the changed file: without [modifiedExports]
    (an added or deleted file, or a modified one whose exported names
    are the same or could not be compared) the import is affecting with
    all its specifiers; with [modifiedExports] it is affecting exactly
    when it names one of them, and those names are recorded. *)
Theorem script_change_classification E G cs c f imp :
  getLastCommitChanges E G = Some cs → c ∈ cs →
  resolveImportPath E f (source imp) (rootDir E) = Some (changedFile c) →
  determineAffectingChanges E f [c] [imp]
  = match modifiedExports c with
    | None => [mkAffectingImport c (specifiers imp)]
    | Some m =>
        if decide (intersection imp m = []) then []
        else [mkAffectingImport c (intersection imp m)]
    end.
Proof.
  intros Hcs Hc Hres. destruct (script_change_fields E G cs c Hcs Hc) as [Hne Hkind].
  rewrite determineAffectingChanges_flat. csimpl. rewrite !app_nil_r.
  destruct (modifiedExports c) as [m |] eqn:Hm.
  - apply classifyImport_fine; [done | | done | by intros ->].
    destruct (decide (changeType c = KModify)) as [| Hk]; [done |].
    by specialize (Hkind Hk).
  - apply classifyImport_coarse; [done |]. unfold coarse. rewrite Hm.
    destruct (changeType c); naive_solver.
Qed.

Lemma script_change_classification_witness :
  let cx := mkFileChange "/p/x.ts" KModify (Some ["baz"; "bar"]) in
  determineAffectingChanges sampleNow "/p/y.ts" [cx] [mkImportInfo "./x" ["foo"]] = []
  ∧ determineAffectingChanges sampleNow "/p/z.ts" [cx] [mkImportInfo "./x" ["baz"]]
    = [mkAffectingImport cx ["baz"]]
  ∧ determineAffectingChanges sampleNow "/p/entry.ts"
      [mkFileChange "/p/y.ts" KModify None] [mkImportInfo "./y" ["y"]]
    = [mkAffectingImport (mkFileChange "/p/y.ts" KModify None) ["y"]].
Proof.
  intros cx.
  assert (Hcs : getLastCommitChanges sampleNow lastCommit
                = Some [cx; mkFileChange "/p/y.ts" KModify None;
                        mkFileChange "/p/z.ts" KAdd None;
                        mkFileChange "/p/broken.ts" KDelete None])
    by (vm_compute; reflexivity).
  split_and!.
  - apply (script_change_classification sampleNow lastCommit _ cx "/p/y.ts"
             (mkImportInfo "./x" ["foo"]) Hcs);
      [apply (bool_decide_unpack _); vm_compute; exact I | reflexivity].
  - apply (script_change_classification sampleNow lastCommit _ cx "/p/z.ts"
             (mkImportInfo "./x" ["baz"]) Hcs);
      [apply (bool_decide_unpack _); vm_compute; exact I | reflexivity].
  - apply (script_change_classification sampleNow lastCommit _
             (mkFileChange "/p/y.ts" KModify None) "/p/entry.ts"
             (mkImportInfo "./y" ["y"]) Hcs);
      [apply (bool_decide_unpack _); vm_compute; exact I | reflexivity].
Defined.

(** X7: the [catch] of [main] is reached exactly when [git diff]
    rejects; [main] reports that nothing relevant changed exactly when
    no line of the diff names a source file with a status starting with
    [A], [D] or [M]; and in every other case it starts the analyzer with
    the entry option and the serialized, non-empty list of changes. *)
Theorem main_outcomes E G :
  (main E G = Exit1 ↔ gitDiff G = None)
  ∧ (main E G = NoRelevantChanges
     ↔ ∃ diff, gitDiff G = Some diff
         ∧ ∀ line status filePath more,
             line ∈ splitOn (Ascii.ascii_of_nat 10) diff →
             splitOn (Ascii.ascii_of_nat 9) line = status :: filePath :: more →
             matchesSource filePath = true → statusKind status = None)
  ∧ (∀ args, main E G = SpawnNpm args
     ↔ ∃ cs, getLastCommitChanges E G = Some cs ∧ cs ≠ []
         ∧ args = ["run"; "analyze"; "--"; "-e"; entryOption G;
                   "-f"; jsonStringify G cs]).
Proof.
  unfold main. destruct (getLastCommitChanges E G) as [cs |] eqn:Hcs.
  - assert (∃ diff, gitDiff G = Some diff) as [diff Hdiff].
    { unfold getLastCommitChanges in Hcs. destruct (gitDiff G); [eauto | done]. }
    pose proof (λ c, getLastCommitChanges_elem E G diff cs c Hdiff Hcs) as Helem.
    split_and!.
    + rewrite Hdiff. by destruct cs.
    + split.
      * intros Hmain. exists diff. split; [done |].
        intros line status filePath more Hline Hparts Hsrc.
        destruct (statusKind status) as [k |] eqn:Hk; [| done].
        destruct cs as [| c cs]; [| done]. exfalso.
        eapply (not_elem_of_nil (A:=FileChange)), Helem.
        by exists line, status, filePath, more, k.
      * intros (diff' & Hdiff' & Hnone). destruct cs as [| c cs]; [done |].
        rewrite Hdiff in Hdiff'. injection Hdiff' as <-.
        destruct (proj1 (Helem c)) as (line & status & filePath & more & k & Hl & Hp & Hs & Hk & _);
          [apply list_elem_of_here |].
        by rewrite (Hnone line status filePath more Hl Hp Hs) in Hk.
    + intros args. split.
      * destruct cs as [| c cs]; [done |]. intros [= <-]. by exists (c :: cs).
      * intros (cs' & [= <-] & Hne & ->). by destruct cs.
  - split_and!.
    + split; [| done]. intros _. unfold getLastCommitChanges in Hcs.
      by destruct (gitDiff G).
    + split; [done |]. intros (diff & Hdiff & _).
      unfold getLastCommitChanges in Hcs. by rewrite Hdiff in Hcs.
    + intros args. split; [done |]. by intros (cs & ? & _).
Qed.

Example main_on_lastCommit :
  main sampleNow lastCommit
  = SpawnNpm ["run"; "analyze"; "--"; "-e"; "/p/entry.ts"; "-f";
              "/p/x.ts,/p/y.ts,/p/z.ts,/p/broken.ts"].
Proof. vm_compute. reflexivity. Qed.

(** ** More on the returned tree *)

Lemma visitFile_targets_changes E changes f :
  (visitFile E changes f).2 = (visitFile E [] f).2.
Proof.
  destruct (access E f) eqn:Hacc; [| by rewrite !visitFile_inaccessible].
  destruct (isJavaScriptFile E f) eqn:Hjs; [| by rewrite !visitFile_asset].
  destruct (shouldIgnoreFile E f) eqn:Hign; [by rewrite !visitFile_ignored |].
  destruct (parseFile E f) as [[imps exps] |] eqn:Hparse.
  - by rewrite !(visitFile_parsed _ _ _ imps exps).
  - by rewrite !visitFile_unparsed.
Qed.

(** The files of the nodes of a tree are those the import edges reach
    from its root. *)
Lemma tree_files_reachable E changes tree :
  TreeOk E changes tree →
  ∀ f, (∃ n, n ∈ subnodes tree ∧ file n = f) ↔ reachable E (file tree) f.
Proof.
  intros Hok f. split.
  - intros (n & Hn & <-).
    assert (Hshape : ∀ m, m ∈ subnodes tree →
              m = stubNode E (file m) ∨ entry m = visitFile E changes (file m))
      by (intros m Hm; by eapply node_cases).
    clear Hok. revert n Hn Hshape.
    induction tree as [tree IH] using FileNode_nested_ind. intros n Hn Hshape.
    rewrite subnodes_unfold in Hn. apply elem_of_cons in Hn as [-> | Hn];
      [apply rtc_refl |].
    apply elem_of_concat in Hn as (l & Hn & (k & -> & Hk)%list_elem_of_fmap).
    apply rtc_l with (file k).
    + unfold importEdge. rewrite <- visitFile_targets_changes with (changes := changes).
      destruct (Hshape tree (subnodes_self tree)) as [Hstub | Hfull].
      * rewrite Hstub in Hk. by apply elem_of_nil in Hk.
      * rewrite <- Hfull. simpl. by apply list_elem_of_fmap_2.
    + rewrite Forall_forall in IH. apply (IH k Hk n Hn).
      intros m Hm. apply Hshape. eapply subnodes_trans; [| done].
      eapply subnodes_child; [apply subnodes_self | done].
  - revert f.
    apply (rtc_ind_r (R := importEdge E)
             (λ f, ∃ n, n ∈ subnodes tree ∧ file n = f) (file tree)).
    + exists tree. split; [apply subnodes_self | done].
    + intros g p _ Hedge (n & Hn & <-).
      destruct (tree_first _ _ _ Hok n Hn) as (n' & Hn' & Hentry).
      unfold importEdge in Hedge.
      rewrite <- visitFile_targets_changes with (changes := changes), <- Hentry in Hedge.
      simpl in Hedge. apply list_elem_of_fmap in Hedge as (c & -> & Hc).
      exists c. split; [| done]. by eapply subnodes_child.
Qed.

(** X8: the root of the returned tree is never a stub or a fallback leaf:
    it is the node the visit of the entry file produces, and its
    children are, in order, the import targets of the entry file. *)
Theorem root_is_entry_visit E fuel sched options tree :
  analyzeProject E fuel sched options = Some (inr tree) →
  tree = withChildren (children tree) (visitFile E (changes options) (entryFile options)).1
  ∧ file <$> children tree = (visitFile E (changes options) (entryFile options)).2.
Proof.
  intros (_ & Hroot & Hok)%analyzeProject_tree.
  pose proof (root_visited _ _ _ Hok) as Hentry.
  rewrite Hroot, (surjective_pairing (visitFile _ _ _)) in Hentry.
  apply entry_inv in Hentry; [done | apply visitFile_children].
Qed.

Lemma root_is_entry_visit_witness :
  sampleTree
  = withChildren (children sampleTree)
      (visitFile sample (changes sampleOptions) (entryFile sampleOptions)).1
  ∧ file <$> children sampleTree
    = (visitFile sample (changes sampleOptions) (entryFile sampleOptions)).2.
Proof.
  apply (root_is_entry_visit sample 8 [] sampleOptions sampleTree).
  vm_compute. reflexivity.
Defined.

(** X9: every file that occurs in the returned tree is accessible, and
    the tree holds, for that file, the node its visit produces with one
    child per import target: what a stub leaves out is present at the
    first encounter. *)
Theorem every_file_has_its_visit E fuel sched options tree :
  analyzeProject E fuel sched options = Some (inr tree) →
  ∀ n, n ∈ subnodes tree →
    access E (file n) = true
    ∧ ∃ n', n' ∈ subnodes tree ∧ file n' = file n
            ∧ n' = withChildren (children n') (visitFile E (changes options) (file n)).1
            ∧ file <$> children n' = (visitFile E (changes options) (file n)).2.
Proof.
  intros (_ & _ & Hok)%analyzeProject_tree n Hn.
  split; [apply (tree_access _ _ _ Hok n Hn) |].
  destruct (tree_first _ _ _ Hok n Hn) as (n' & Hn' & Hentry).
  exists n'. split; [done |].
  assert (file n' = file n) as Hfile.
  { change (file n') with (file (entry n').1). rewrite Hentry. apply visitFile_file. }
  split; [done |].
  rewrite (surjective_pairing (visitFile _ _ _)) in Hentry.
  apply entry_inv in Hentry; [done | apply visitFile_children].
Qed.

Lemma every_file_has_its_visit_witness :
  ∃ tree, analyzeProject cycle 3 [] cycleOptions = Some (inr tree)
    ∧ ∀ n, n ∈ subnodes tree →
        access cycle (file n) = true
        ∧ ∃ n', n' ∈ subnodes tree ∧ file n' = file n
                ∧ n' = withChildren (children n')
                         (visitFile cycle (changes cycleOptions) (file n)).1
                ∧ file <$> children n'
                  = (visitFile cycle (changes cycleOptions) (file n)).2.
Proof.
  eexists. split; [vm_compute; reflexivity |].
  apply (every_file_has_its_visit cycle 3 [] cycleOptions).
  vm_compute. reflexivity.
Defined.

(** X10: the files of the returned tree are exactly the files reachable
    from the entry file along import edges (an import whose resolved
    path is accessible, read from a parsed, not ignored code file): the
    set does not depend on the schedule, nor on the Change Set. *)
Theorem tree_covers_reachable_files E fuel sched options tree :
  analyzeProject E fuel sched options = Some (inr tree) →
  ∀ f, (∃ n, n ∈ subnodes tree ∧ file n = f) ↔ reachable E (entryFile options) f.
Proof.
  intros (_ & Hroot & Hok)%analyzeProject_tree f. rewrite <- Hroot.
  by apply (tree_files_reachable E (changes options)).
Qed.

Lemma tree_covers_reachable_files_witness :
  analyzeProject sample 8 [] sampleOptions = Some (inr sampleTree)
  ∧ ∀ f, (∃ n, n ∈ subnodes sampleTree ∧ file n = f)
         ↔ reachable sample (entryFile sampleOptions) f.
Proof.
  split; [vm_compute; reflexivity |].
  apply (tree_covers_reachable_files sample 8 [] sampleOptions sampleTree).
  vm_compute. reflexivity.
Defined.

(** X11: which files are reported affected does not depend on the
    schedule: the tree has a node of [f] with [isAffected = true]
    exactly when [f] is reachable from the entry file and its visit
    marks it. *)
Theorem affected_files_schedule_independent E fuel sched options tree :
  analyzeProject E fuel sched options = Some (inr tree) →
  ∀ f, (∃ n, n ∈ subnodes tree ∧ file n = f ∧ isAffected n = Some true)
       ↔ reachable E (entryFile options) f
         ∧ isAffected (visitFile E (changes options) f).1 = Some true.
Proof.
  intros (_ & Hroot & Hok)%analyzeProject_tree f. rewrite <- Hroot. split.
  - intros (n & Hn & <- & Haff). split.
    + apply (tree_files_reachable E (changes options) tree Hok). by exists n.
    + destruct (node_cases _ _ _ _ Hok Hn) as [Hstub | Hfull].
      * by rewrite Hstub in Haff.
      * by rewrite <- Hfull.
  - intros [(n & Hn & <-)%(tree_files_reachable E (changes options) tree Hok) Haff].
    destruct (tree_first _ _ _ Hok n Hn) as (n' & Hn' & Hentry).
    exists n'. split_and!; [done | |].
    + change (file n') with (file (entry n').1). rewrite Hentry. apply visitFile_file.
    + change (isAffected n') with (isAffected (entry n').1). by rewrite Hentry.
Qed.

Lemma affected_files_schedule_independent_witness :
  analyzeProject sample 8 [] sampleOptions = Some (inr sampleTree)
  ∧ ∀ f, (∃ n, n ∈ subnodes sampleTree ∧ file n = f ∧ isAffected n = Some true)
         ↔ reachable sample (entryFile sampleOptions) f
           ∧ isAffected (visitFile sample (changes sampleOptions) f).1 = Some true.
Proof.
  split; [vm_compute; reflexivity |].
  apply (affected_files_schedule_independent sample 8 [] sampleOptions sampleTree).
  vm_compute. reflexivity.
Defined.

(** X12: with an empty Change Set no node of the returned tree carries
    [isAffected], [changeType] or [reason]. *)
Theorem empty_change_set_no_annotations E fuel sched options tree :
  changes options = [] →
  analyzeProject E fuel sched options = Some (inr tree) →
  ∀ n, n ∈ subnodes tree →
    isAffected n = None ∧ nodeChangeType n = None ∧ reason n = None.
Proof.
  intros Hnone (_ & _ & Hok)%analyzeProject_tree n Hn.
  destruct (node_cases _ _ _ _ Hok Hn) as [-> | Hfull]; [done |].
  change (isAffected n) with (isAffected (entry n).1).
  change (nodeChangeType n) with (nodeChangeType (entry n).1).
  change (reason n) with (reason (entry n).1).
  rewrite Hfull, Hnone. unfold visitFile. simpl.
  repeat (case_match; simpl; try done).
Qed.

Lemma empty_change_set_no_annotations_witness :
  ∃ tree, analyzeProject diamond 5 [] diamondOptions = Some (inr tree)
    ∧ ∀ n, n ∈ subnodes tree →
        isAffected n = None ∧ nodeChangeType n = None ∧ reason n = None.
Proof.
  eexists. split; [vm_compute; reflexivity |].
  apply (empty_change_set_no_annotations diamond 5 [] diamondOptions);
    [reflexivity | vm_compute; reflexivity].
Defined.

Lemma reasonLine_nonempty E a : reasonLine E a ≠ "".
Proof.
  unfold reasonLine. destruct (changeType (change a)); [| case_match |]; done.
Qed.

Lemma impactReason_nonempty E f entries imps :
  entries ≠ [] → determineImpactReason E f entries imps ≠ "".
Proof.
  intros Hne. rewrite determineImpactReason_lines.
  destruct entries as [| a [| b entries]]; [done | |]; csimpl.
  - apply reasonLine_nonempty.
  - pose proof (reasonLine_nonempty E a) as Ha.
    destruct (reasonLine E a); done.
Qed.

Local Ltac close_fields :=
  split_and!; try done; try (by intros [? ?]); try (by split; intros [? ?]);
  try (by split; eauto); eauto.

(** What the optional fields of a visited node are, case by case. *)
Lemma visitFile_fields E changes f :
  let node := (visitFile E changes f).1 in
  (is_Some (imports node) ↔ is_Some (exports node))
  ∧ (isAffected node = Some true → ∃ r, reason node = Some r ∧ r ≠ "")
  ∧ (is_Some (nodeChangeType node) → is_Some (reason node))
  ∧ (is_Some (reason node) → is_Some (nodeChangeType node) ∨ isAffected node = Some true)
  ∧ (type node = asset → imports node = None)
  ∧ (access E f = true → isJavaScriptFile E f = true → shouldIgnoreFile E f = true →
     imports node = None ∧ isAffected node = None)
  ∧ (imports node = None → (visitFile E changes f).2 = [])
  ∧ nodeChangeType node = changeType <$> (if access E f then findChange changes f else None).
Proof.
  cbv zeta.
  destruct (access E f) eqn:Hacc;
    [| rewrite visitFile_inaccessible by done; simpl; close_fields].
  destruct (isJavaScriptFile E f) eqn:Hjs.
  - destruct (shouldIgnoreFile E f) eqn:Hign.
    { rewrite visitFile_ignored by done. unfold stamped, fileType. rewrite Hjs.
      destruct (findChange changes f); simpl; close_fields. }
    destruct (parseFile E f) as [[imps exps] |] eqn:Hparse.
    + rewrite (visitFile_parsed _ _ _ imps exps) by done. cbv zeta.
      unfold stamped, fileType. rewrite Hjs.
      destruct (determineAffectingChanges E f changes imps) as [| a l] eqn:Hent.
      * destruct (findChange changes f); simpl; close_fields.
      * rewrite bool_decide_eq_true_2 by (simpl; lia).
        destruct (findChange changes f); simpl; close_fields;
          intros _; eexists; (split; [done |]); by apply impactReason_nonempty.
    + rewrite visitFile_unparsed by done. unfold stamped, fileType. rewrite Hjs.
      destruct (findChange changes f); simpl; close_fields.
  - rewrite visitFile_asset by done. unfold stamped, fileType. rewrite Hjs.
    destruct (findChange changes f) as [c |]; simpl; close_fields.
Qed.


(** X13: the optional fields of every node of the returned tree go
    together: [imports] is present exactly when [exports] is; an
    affected node has a non-empty [reason]; a node with a [changeType]
    has a [reason]; and a [reason] is only present on a node that has a
    [changeType] or is affected. *)
Theorem node_fields_coherent E fuel sched options tree :
  analyzeProject E fuel sched options = Some (inr tree) →
  ∀ n, n ∈ subnodes tree →
    (is_Some (imports n) ↔ is_Some (exports n))
    ∧ (isAffected n = Some true → ∃ r, reason n = Some r ∧ r ≠ "")
    ∧ (is_Some (nodeChangeType n) → is_Some (reason n))
    ∧ (is_Some (reason n) → is_Some (nodeChangeType n) ∨ isAffected n = Some true).
Proof.
  intros (_ & _ & Hok)%analyzeProject_tree n Hn.
  destruct (node_cases _ _ _ _ Hok Hn) as [-> | Hfull].
  { simpl. split_and!; try done; by intros [? ?]. }
  pose proof (visitFile_fields E (changes options) (file n)) as Hfields.
  cbv zeta in Hfields. rewrite <- Hfull in Hfields. simpl in Hfields.
  by destruct Hfields as (? & ? & ? & ? & _).
Qed.

Lemma node_fields_coherent_witness :
  analyzeProject sample 8 [] sampleOptions = Some (inr sampleTree)
  ∧ ∀ n, n ∈ subnodes sampleTree →
    (is_Some (imports n) ↔ is_Some (exports n))
    ∧ (isAffected n = Some true → ∃ r, reason n = Some r ∧ r ≠ "")
    ∧ (is_Some (nodeChangeType n) → is_Some (reason n))
    ∧ (is_Some (reason n) → is_Some (nodeChangeType n) ∨ isAffected n = Some true).
Proof.
  split; [vm_compute; reflexivity |].
  apply (node_fields_coherent sample 8 [] sampleOptions sampleTree).
  vm_compute. reflexivity.
Defined.

(** X14: only parsed code files have children: a node without [imports]
    is a leaf, an asset node has neither [imports] nor children, and an
    ignored code file is a leaf without [imports] that is never marked
    affected, whatever the Change Set says about it or its imports. *)
Theorem only_parsed_code_has_children E fuel sched options tree :
  analyzeProject E fuel sched options = Some (inr tree) →
  ∀ n, n ∈ subnodes tree →
    (imports n = None → children n = [])
    ∧ (type n = asset → imports n = None ∧ children n = [])
    ∧ (isJavaScriptFile E (file n) = true → shouldIgnoreFile E (file n) = true →
       imports n = None ∧ children n = [] ∧ isAffected n = None).
Proof.
  intros (_ & _ & Hok)%analyzeProject_tree n Hn.
  pose proof (tree_access _ _ _ Hok n Hn) as Hacc.
  destruct (node_cases _ _ _ _ Hok Hn) as [-> | Hfull]; [done |].
  pose proof (visitFile_fields E (changes options) (file n)) as Hfields.
  cbv zeta in Hfields. rewrite <- Hfull in Hfields. simpl in Hfields.
  destruct Hfields as (_ & _ & _ & _ & Hasset & Hign & Hleaf & _).
  assert (Hkids : imports n = None → children n = []).
  { intros Him. by eapply fmap_nil_inv, Hleaf. }
  split_and!; [done | |].
  - intros Ht. split; [by apply Hasset | by apply Hkids, Hasset].
  - intros Hjs Hig. destruct (Hign Hacc Hjs Hig) as [Him Haff]. auto.
Qed.

Lemma only_parsed_code_has_children_witness :
  analyzeProject sample 8 [] sampleOptions = Some (inr sampleTree)
  ∧ ∀ n, n ∈ subnodes sampleTree →
    (imports n = None → children n = [])
    ∧ (type n = asset → imports n = None ∧ children n = [])
    ∧ (isJavaScriptFile sample (file n) = true →
       shouldIgnoreFile sample (file n) = true →
       imports n = None ∧ children n = [] ∧ isAffected n = None).
Proof.
  split; [vm_compute; reflexivity |].
  apply (only_parsed_code_has_children sample 8 [] sampleOptions sampleTree).
  vm_compute. reflexivity.
Defined.

(** X15: a node has a [changeType] only if its file is in the Change
    Set, and then it is the kind of the first entry for that file; a
    node of a changed file that is not a stub has it. *)
Theorem changeType_from_first_entry E fuel sched options tree :
  analyzeProject E fuel sched options = Some (inr tree) →
  ∀ n, n ∈ subnodes tree →
    (∀ k, nodeChangeType n = Some k →
       ∃ pre c post,
         changes options = pre ++ c :: post
         ∧ changedFile c = file n ∧ changeType c = k
         ∧ ∀ c', c' ∈ pre → changedFile c' ≠ file n)
    ∧ (∀ c, c ∈ changes options → changedFile c = file n →
         isStub E n = false → is_Some (nodeChangeType n)).
Proof.
  intros (_ & _ & Hok)%analyzeProject_tree n Hn.
  pose proof (tree_access _ _ _ Hok n Hn) as Hacc.
  destruct (node_cases _ _ _ _ Hok Hn) as [Hstub | Hfull].
  { split.
    - intros k Hk. by rewrite Hstub in Hk.
    - intros c _ _ Hns. apply isStub_eq in Hstub. congruence. }
  pose proof (visitFile_fields E (changes options) (file n)) as Hfields.
  cbv zeta in Hfields. rewrite <- Hfull, Hacc in Hfields. simpl in Hfields.
  destruct Hfields as (_ & _ & _ & _ & _ & _ & _ & Hkind).
  unfold findChange in Hkind. split.
  - intros k Hk. rewrite Hk in Hkind.
    destruct (List.find _ (changes options)) as [c |] eqn:Hfind; [| done].
    injection Hkind as ->.
    apply find_first in Hfind as (pre & post & Hsplit & Hc%bool_decide_eq_true & Hpre).
    exists pre, c, post. split_and!; try done.
    intros c' Hc'. by apply Hpre, bool_decide_eq_false in Hc'.
  - intros c Hc Hfile _. rewrite Hkind.
    destruct (List.find _ (changes options)) as [c' |] eqn:Hfind; [by eexists |].
    apply (find_none_all _ _ Hfind c) in Hc. by apply bool_decide_eq_false in Hc.
Qed.

Lemma changeType_from_first_entry_witness :
  analyzeProject sample 8 [] sampleOptions = Some (inr sampleTree)
  ∧ ∀ n, n ∈ subnodes sampleTree →
    (∀ k, nodeChangeType n = Some k →
       ∃ pre c post,
         changes sampleOptions = pre ++ c :: post
         ∧ changedFile c = file n ∧ changeType c = k
         ∧ ∀ c', c' ∈ pre → changedFile c' ≠ file n)
    ∧ (∀ c, c ∈ changes sampleOptions → changedFile c = file n →
         isStub sample n = false → is_Some (nodeChangeType n)).
Proof.
  split; [vm_compute; reflexivity |].
  apply (changeType_from_first_entry sample 8 [] sampleOptions sampleTree).
  vm_compute. reflexivity.
Defined.

(** ** More on the classifier *)

(** X16: the classifier reports nothing it has no ground for: every
    entry names a change of the Change Set and comes from an import of
    the file that resolves to exactly that changed file; its specifiers
    are specifiers of that import, in the import's order, and for a
    [modify] with [modifiedExports] they are all modified exports.  When
    no import resolves to a changed file there is no entry. *)
Theorem classifier_entries_sound E f changes imps :
  (∀ a, a ∈ determineAffectingChanges E f changes imps →
     change a ∈ changes
     ∧ ∃ imp, imp ∈ imps
         ∧ resolveImportPath E f (source imp) (rootDir E) = Some (changedFile (change a))
         ∧ importedSpecifiers a `sublist_of` specifiers imp
         ∧ (changeType (change a) = KModify → hasModifiedExports (change a) = true →
            importedSpecifiers a ≠ []
            ∧ ∀ s, s ∈ importedSpecifiers a → modifiedIncludes (change a) s = true))
  ∧ ((∀ c imp, c ∈ changes → imp ∈ imps →
        resolveImportPath E f (source imp) (rootDir E) ≠ Some (changedFile c)) →
     determineAffectingChanges E f changes imps = []).
Proof.
  split.
  - intros a (c & imp & Hc & Himp & Ha)%elem_of_determineAffectingChanges.
    apply classifyImport_elem in Ha as (<- & Hres & Hspec).
    split; [done |]. exists imp. split_and!; [done | done | |].
    + destruct (bool_decide _ && _).
      * destruct Hspec as [-> _]. apply sublist_List_filter.
      * by rewrite Hspec.
    + intros Hk Hm. rewrite Hm, bool_decide_eq_true_2 in Hspec by done.
      destruct Hspec as [Heq Hne]. split; [done |].
      intros s. rewrite Heq. by intros [_ ?]%elem_of_List_filter.
  - intros Hnone.
    destruct (determineAffectingChanges E f changes imps) as [| a l] eqn:Hent; [done |].
    assert (a ∈ determineAffectingChanges E f changes imps) as Ha
      by (rewrite Hent; apply list_elem_of_here).
    apply elem_of_determineAffectingChanges in Ha as (c & imp & Hc & Himp & Ha).
    apply classifyImport_elem in Ha as (_ & Hres & _). by destruct (Hnone c imp).
Qed.

Lemma classifier_entries_sound_witness :
  let cx := mkFileChange "/p/x.ts" KModify (Some ["foo"]) in
  let imps := [mkImportInfo "./x" ["bar"; "foo"]] in
  let a := mkAffectingImport cx ["foo"] in
  (change a ∈ sampleChanges
   ∧ ∃ imp, imp ∈ imps
       ∧ resolveImportPath sample "/p/z.ts" (source imp) (rootDir sample)
         = Some (changedFile (change a))
       ∧ importedSpecifiers a `sublist_of` specifiers imp
       ∧ (changeType (change a) = KModify → hasModifiedExports (change a) = true →
          importedSpecifiers a ≠ []
          ∧ ∀ s, s ∈ importedSpecifiers a → modifiedIncludes (change a) s = true))
  ∧ determineAffectingChanges sample "/p/entry.ts" sampleChanges
      [mkImportInfo "lodash" ["map"]] = [].
Proof.
  intros cx imps a. split.
  - apply (proj1 (classifier_entries_sound sample "/p/z.ts" sampleChanges imps)).
    replace (determineAffectingChanges sample "/p/z.ts" sampleChanges imps) with [a]
      by (vm_compute; reflexivity).
    apply list_elem_of_here.
  - apply (proj2 (classifier_entries_sound sample "/p/entry.ts" sampleChanges
                    [mkImportInfo "lodash" ["map"]])).
    intros c imp _ ->%list_elem_of_singleton. vm_compute. discriminate.
Defined.

Lemma classifyImport_length E f c imp : length (classifyImport E f c [] imp) ≤ 1.
Proof. unfold classifyImport. repeat case_match; simpl; lia. Qed.

(** X17: every pair of a change and an import gives at most one entry:
    there are at most as many entries as the product of the number of
    changes and the number of imports, and none without changes or
    without imports. *)
Theorem classifier_entries_bounded E f changes imps :
  length (determineAffectingChanges E f changes imps) ≤ length changes * length imps.
Proof.
  rewrite determineAffectingChanges_flat.
  induction changes as [| c changes IH]; csimpl; [done |].
  rewrite length_app.
  pose proof (bind_length_le (classifyImport E f c []) imps (classifyImport_length E f c)).
  lia.
Qed.

(** ** Reading a reason back *)

Lemma containsChar_app c s1 s2 :
  containsChar c (s1 +:+ s2) = containsChar c s1 || containsChar c s2.
Proof.
  induction s1 as [| c' s1 IH]; simpl; [done |]. by rewrite IH, orb_assoc.
Qed.

Lemma splitOn_free c s : containsChar c s = false → splitOn c s = [s].
Proof.
  induction s as [| c' s IH]; simpl; [done |].
  intros [Hc Hs]%orb_false_iff. by rewrite Hc, IH.
Qed.

Lemma splitOn_app c s t :
  containsChar c s = false → splitOn c (s +:+ String c t) = s :: splitOn c t.
Proof.
  induction s as [| c' s IH]; simpl.
  - intros _. by rewrite bool_decide_eq_true_2.
  - intros [Hc Hs]%orb_false_iff. by rewrite Hc, IH.
Qed.

Lemma splitOn_concat c (lines : list string) :
  lines ≠ [] → (∀ line, line ∈ lines → containsChar c line = false) →
  splitOn c (String.concat (String c "") lines) = lines.
Proof.
  induction lines as [| x [| y lines] IH]; intros Hne Hfree; [done | |].
  - simpl. apply splitOn_free, Hfree, list_elem_of_here.
  - change (String.concat (String c "") (x :: y :: lines))
      with (x +:+ String c (String.concat (String c "") (y :: lines))).
    rewrite splitOn_app by apply Hfree, list_elem_of_here.
    f_equal. apply IH; [done |]. intros line Hline. by apply Hfree, list_elem_of_further.
Qed.

Lemma containsChar_concat c sep (l : list string) :
  containsChar c sep = false → (∀ s, s ∈ l → containsChar c s = false) →
  containsChar c (String.concat sep l) = false.
Proof.
  intros Hsep. induction l as [| x [| y l] IH]; intros Hfree; [done | |].
  - simpl. apply Hfree, list_elem_of_here.
  - change (String.concat sep (x :: y :: l))
      with (x +:+ sep +:+ String.concat sep (y :: l)).
    rewrite !containsChar_app, Hsep, IH, (Hfree x) by
      (try apply list_elem_of_here; intros s Hs; by apply Hfree, list_elem_of_further).
    done.
Qed.

Lemma reasonLine_one_line E a :
  containsChar (Ascii.ascii_of_nat 10) (basename E (changedFile (change a))) = false →
  (∀ s, s ∈ importedSpecifiers a → containsChar (Ascii.ascii_of_nat 10) s = false) →
  containsChar (Ascii.ascii_of_nat 10) (reasonLine E a) = false.
Proof.
  intros Hbase Hspecs. unfold reasonLine.
  destruct (changeType (change a)); [| case_match |];
    rewrite !containsChar_app, ?Hbase, ?containsChar_concat; done.
Qed.

(** X18: a reason can be split back into its lines: when no basename and
    no specifier contains a line feed, splitting the reason of a
    non-empty list of entries at the line feeds gives one line per
    entry, in the order of the entries. *)
Theorem reason_splits_into_lines E f entries imps :
  entries ≠ [] →
  (∀ a, a ∈ entries →
     containsChar (Ascii.ascii_of_nat 10) (basename E (changedFile (change a))) = false
     ∧ ∀ s, s ∈ importedSpecifiers a → containsChar (Ascii.ascii_of_nat 10) s = false) →
  splitOn (Ascii.ascii_of_nat 10) (determineImpactReason E f entries imps)
  = reasonLine E <$> entries.
Proof.
  intros Hne Hfree. rewrite determineImpactReason_lines.
  apply splitOn_concat.
  - by destruct entries.
  - intros line (a & -> & Ha)%list_elem_of_fmap.
    destruct (Hfree a Ha). by apply reasonLine_one_line.
Qed.

Lemma reason_splits_into_lines_witness :
  let entries := determineAffectingChanges sample "/p/entry.ts" sampleChanges
                   [mkImportInfo "./y" ["y"]; mkImportInfo "./logo.png" []] in
  splitOn (Ascii.ascii_of_nat 10)
    (determineImpactReason sample "/p/entry.ts" entries [])
  = ["File 'y.ts' content was modified";
     "New file 'logo.png' was added that is imported"].
Proof.
  intros entries.
  apply (reason_splits_into_lines sample "/p/entry.ts" entries []).
  - vm_compute. discriminate.
  - intros a Ha. vm_compute in Ha.
    apply elem_of_cons in Ha as [-> | Ha]; [by split; [| intros s; vm_compute; set_solver] |].
    apply elem_of_cons in Ha as [-> | Ha]; [by split; [| intros s; vm_compute; set_solver] |].
    by apply elem_of_nil in Ha.
Defined.

(** ** The size of the tree *)

Section TreeSize.
Variable E : Collaborators.
Variable changes : list FileChange.

Lemma run_invariant (P : gset string → Task → Prop) fuel sched v t tree :
  (∀ k v t, P v t → k < pendingCount t →
            P (advance E changes k v t).2 (advance E changes k v t).1) →
  P v t → run E changes fuel sched v t = Some tree →
  ∃ v' t', P v' t' ∧ settle t' = Some tree.
Proof.
  intros Hstep. revert sched v t. induction fuel as [| fuel IH]; intros sched v t HP;
    rewrite run_unfold; case_bool_decide as Hcount; try done.
  1, 2: by (intros Hsettle; exists v, t).
  intros Hrun. apply IH in Hrun; [done |]. apply Hstep; [done | lia].
Qed.

Lemma Counted_advance k v t :
  Counted E changes v t → k < pendingCount t →
  Counted E changes (advance E changes k v t).2 (advance E changes k v t).1.
Proof.
  intros [Hinv Hsum] Hk. split; [by apply Inv_advance |].
  destruct (advance_spec E changes t k v Hk) as (f & _ & -> & _ & -> & _).
  simpl. rewrite Hsum. unfold enterNode.
  destruct (decide (f ∈ v)) as [Hin | Hin].
  - rewrite bool_decide_eq_true_2 by done. simpl.
    by replace ({[f]} ∪ v) with v
      by (symmetry; apply subseteq_union_1_L; by apply singleton_subseteq_l).
  - rewrite bool_decide_eq_false_2 by done.
    by rewrite (elements_union_singleton v f Hin).
Qed.

Lemma subnodes_length tree :
  length (subnodes tree)
  = 1 + sum_list_with (λ n, length (children n)) (subnodes tree).
Proof.
  induction tree as [tree IH] using FileNode_nested_ind.
  rewrite (subnodes_unfold tree). simpl. f_equal.
  induction IH as [| k kids Hk _ IHkids]; [done |]. csimpl.
  rewrite length_app, sum_list_with_app, Hk. lia.
Qed.

Lemma tree_size tree v t :
  Counted E changes v t → settle t = Some tree →
  length (subnodes tree)
  = 1 + sum_list_with (λ f, length (visitFile E changes f).2)
          (elements (list_to_set (file <$> subnodes tree) : gset string)).
Proof.
  intros [Hinv Hsum] Hsettle.
  pose proof (started_entries E changes t tree (inv_shape _ _ _ _ Hinv) Hsettle)
    as Hentries.
  assert (v = list_to_set (file <$> subnodes tree)) as <-.
  { apply set_eq. intros f. rewrite elem_of_list_to_set, list_elem_of_fmap. split.
    - intros Hf. apply (inv_first _ _ _ _ Hinv) in Hf. rewrite <- Hentries in Hf.
      apply list_elem_of_fmap in Hf as (n & Hn & Hin). exists n. split; [| done].
      change (file n) with (file (entry n).1). rewrite <- Hn. by rewrite visitFile_file.
    - intros (n & -> & Hn). apply (inv_visited _ _ _ _ Hinv (entry n)).
      rewrite <- Hentries. by apply list_elem_of_fmap_2. }
  rewrite subnodes_length, <- Hsum, <- Hentries. f_equal.
  clear Hentries Hsum. induction (subnodes tree) as [| n l IH]; [done |]. csimpl.
  by rewrite IH, length_fmap.
Qed.

End TreeSize.

(** X19: the tree has one node for the entry and one for every import
    target of every file that occurs in it, each file counted once: its
    size does not depend on the schedule, and a file that many files
    import is expanded only once. *)
Theorem tree_size_linear E fuel sched options tree :
  analyzeProject E fuel sched options = Some (inr tree) →
  length (subnodes tree)
  = 1 + sum_list_with (λ f, length (visitFile E (changes options) f).2)
          (elements (list_to_set (file <$> subnodes tree) : gset string)).
Proof.
  unfold analyzeProject, buildDependencyTree.
  destruct (access E (entryFile options)) eqn:Hacc; [| done].
  destruct (run _ _ _ _ _ _) as [tree' |] eqn:Hrun; [| done]. intros [= ->].
  apply (run_invariant E (changes options) (Counted E (changes options))) in Hrun
    as (v & t & Hcounted & Hsettle).
  - by eapply tree_size.
  - apply Counted_advance.
  - split; [by apply Inv_initial |]. by rewrite elements_empty.
Qed.

Lemma tree_size_linear_witness :
  analyzeProject diamond 5 [0; 1; 1] diamondOptions
  = Some (inr (diamondTree diamondStub diamondVisited))
  ∧ length (subnodes (diamondTree diamondStub diamondVisited))
    = 1 + sum_list_with (λ f, length (visitFile diamond (changes diamondOptions) f).2)
            (elements (list_to_set (file <$> subnodes (diamondTree diamondStub diamondVisited))
                       : gset string)).
Proof.
  split; [vm_compute; reflexivity |].
  apply (tree_size_linear diamond 5 [0; 1; 1] diamondOptions).
  vm_compute. reflexivity.
Defined.
